(** * OpenDash documentation server: the request-to-page pipeline

    A shallow embedding of [docs/serve_docs.py] (class
    [DocumentationHandler]) and of the library functions it calls, followed
    by the properties of the pipeline.

    Python strings are sequences of Unicode code points: a character is a
    code point in [N] and a string is a list of them. *)

From Stdlib Require Import String Ascii.
From Stdlib Require Import List NArith Bool Arith Lia.
From Equations Require Import Equations.
Import ListNotations.

(** ** Strings *)

Module PyStr.

Definition char := N.
Definition str := list char.

(** A source literal, character by character. *)
Definition lit (s : string) : str :=
  List.map N_of_ascii (list_ascii_of_string s).

Definition chr (a : ascii) : char := N_of_ascii a.

Arguments lit s%_string.
Arguments chr a%_char.

Definition char_eqb (a b : char) : bool := N.eqb a b.

Fixpoint str_eqb (a b : str) : bool :=
  match a, b with
  | [], [] => true
  | x :: a', y :: b' => char_eqb x y && str_eqb a' b'
  | _, _ => false
  end.

(** [c in s] for a one-character [c]. *)
Definition contains (c : char) (s : str) : bool :=
  existsb (char_eqb c) s.

(** [s] without the prefix [p], when [s] starts with it. *)
Fixpoint strip_prefix (p s : str) : option str :=
  match p, s with
  | [], _ => Some s
  | x :: p', y :: s' => if char_eqb x y then strip_prefix p' s' else None
  | _ :: _, [] => None
  end.

(** [s.startswith(p)] *)
Definition startswith (p s : str) : bool :=
  match strip_prefix p s with Some _ => true | None => false end.

(** [s.endswith(p)] *)
Definition endswith (p s : str) : bool :=
  (length p <=? length s) && str_eqb (skipn (length s - length p) s) p.

(** [s.split(sep)] for a one-character separator: never empty. *)
Fixpoint split (sep : char) (s : str) : list str :=
  match s with
  | [] => [[]]
  | c :: s' =>
      if char_eqb c sep then [] :: split sep s'
      else match split sep s' with
           | [] => [[c]]
           | w :: ws => (c :: w) :: ws
           end
  end.

(** The part of [s] before the first [c], all of [s] when there is none. *)
Fixpoint before (c : char) (s : str) : str :=
  match s with
  | [] => []
  | x :: s' => if char_eqb x c then [] else x :: before c s'
  end.

(** [s.replace(old, new)] for a one-character [old]. *)
Definition replace (old : char) (new : str) (s : str) : str :=
  flat_map (fun c => if char_eqb c old then new else [c]) s.

(** [sep.join(l)] *)
Fixpoint join (sep : str) (l : list str) : str :=
  match l with
  | [] => []
  | [w] => w
  | w :: ws => w ++ sep ++ join sep ws
  end.

(** [s.lstrip(chars)], [s.rstrip(chars)] and [s.strip(chars)] over a
    predicate that says which characters go. *)
Fixpoint lstrip_by (p : char -> bool) (s : str) : str :=
  match s with
  | c :: s' => if p c then lstrip_by p s' else s
  | [] => []
  end.

Definition rstrip_by (p : char -> bool) (s : str) : str :=
  rev (lstrip_by p (rev s)).

Definition strip_by (p : char -> bool) (s : str) : str :=
  rstrip_by p (lstrip_by p s).

(** [str.isspace] on one character: the code points CPython's
    [_PyUnicode_IsWhitespace] accepts. *)
Definition is_space (c : char) : bool :=
  (((9 <=? c) && (c <=? 13)) || ((28 <=? c) && (c <=? 32))
   || (c =? 133) || (c =? 160) || (c =? 5760)
   || ((8192 <=? c) && (c <=? 8202))
   || (c =? 8232) || (c =? 8233) || (c =? 8239) || (c =? 8287)
   || (c =? 12288))%N.

(** [s.strip()] *)
Definition strip (s : str) : str := strip_by is_space s.

(** [c] does not occur in [s]. *)
Definition no_char (c : char) (s : str) : Prop := Forall (fun x => x <> c) s.

(** An exception of the kind that [except Exception] catches, by the text
    [str(e)] gives. *)
Definition exn := str.

(** Two strings that are computed one after the other and joined: the first
    exception met is the outcome. *)
Definition cat_res {E : Type} (a b : E + str) : E + str :=
  match a with
  | inl e => inl e
  | inr x => match b with
             | inl e => inl e
             | inr y => inr (x ++ y)
             end
  end.

End PyStr.
Import PyStr.

(** ** Regular expressions: the backtracking matcher of [re]

    Only the constructs of the two patterns at hand: literals, character
    classes, the dot, greedy and lazy repetition of a one-character item,
    concatenation, ordered alternation and capturing groups. *)

Module Re.

Inductive cclass : Type :=
| CDot                                         (* [.] *)
| CLit (c : char)
| CSet (negated : bool) (ranges : list (char * char)).

Definition in_ranges (c : char) (rs : list (char * char)) : bool :=
  existsb (fun r => (fst r <=? c) && (c <=? snd r))%N rs.

(** [dotall] is the flag [re.DOTALL]: without it the dot refuses a newline. *)
Definition cmatch (dotall : bool) (k : cclass) (c : char) : bool :=
  match k with
  | CDot => dotall || negb (char_eqb c (chr "010"))
  | CLit x => char_eqb c x
  | CSet neg rs => xorb neg (in_ranges c rs)
  end.

Inductive regex : Type :=
| REps
| RStr (w : str)
| RChar (k : cclass)
| RRep (k : cclass) (lo : nat) (hi : option nat) (greedy : bool)
| RCat (r1 r2 : regex)
| RAlt (r1 r2 : regex)
| RGroup (n : nat) (r : regex).

(** The groups matched so far, latest first. *)
Definition caps := list (nat * str).

Fixpoint group (n : nat) (g : caps) : str :=
  match g with
  | [] => []
  | (m, w) :: g' => if Nat.eqb m n then w else group n g'
  end.

Section Matcher.

Variable dotall : bool.
Variable R : Type.

Definition may_take (hi : option nat) : bool :=
  match hi with Some 0 => false | _ => true end.

(** [k{lo,hi}] then the continuation: the greedy form takes one more item
    first and gives it back on failure, the lazy form stops first. *)
Fixpoint rep (k : cclass) (greedy : bool) (lo : nat) (hi : option nat)
             (s : str) (cont : str -> option R) : option R :=
  let stop := match lo with 0 => cont s | S _ => None end in
  let more :=
    match s with
    | c :: s' =>
        if may_take hi && cmatch dotall k c
        then rep k greedy (pred lo) (option_map pred hi) s' cont
        else None
    | [] => None
    end in
  if greedy
  then match more with Some x => Some x | None => stop end
  else match stop with Some x => Some x | None => more end.

Fixpoint bt (r : regex) (s : str) (g : caps)
            (cont : str -> caps -> option R) : option R :=
  match r with
  | REps => cont s g
  | RStr w =>
      match strip_prefix w s with
      | Some s' => cont s' g
      | None => None
      end
  | RChar k =>
      match s with
      | c :: s' => if cmatch dotall k c then cont s' g else None
      | [] => None
      end
  | RRep k lo hi greedy => rep k greedy lo hi s (fun s' => cont s' g)
  | RCat r1 r2 => bt r1 s g (fun s' g' => bt r2 s' g' cont)
  | RAlt r1 r2 =>
      match bt r1 s g cont with
      | Some x => Some x
      | None => bt r2 s g cont
      end
  | RGroup n r =>
      bt r s g
         (fun s' g' => cont s' ((n, firstn (length s - length s') s) :: g'))
  end.

End Matcher.

Arguments rep dotall {R} k greedy lo hi s cont.
Arguments bt dotall {R} r s g cont.

(** [pattern.match(s)]: the length of the match at the start of [s] and its
    groups. *)
Definition match_at (dotall : bool) (r : regex) (s : str) : option (nat * caps) :=
  bt dotall r s [] (fun s' g => Some (length s - length s', g)).

(** [re.sub(pattern, repl, s)] with a function [repl], which may raise:
    leftmost matches, left to right, the search resuming where the previous
    match ended; an empty match is replaced and the scan moves one character
    on. The exception of the first call of [repl] that raises is the
    outcome. *)
Equations? sub {E : Type} (dotall : bool) (r : regex) (repl : caps -> E + str)
               (s : str) : E + str
  by wf (length s) lt :=
  sub dotall r repl s with match_at dotall r s := {
    | Some (S n, g) with s := {
        | [] := repl g
        | _ :: s' := cat_res (repl g) (sub dotall r repl (skipn n s')) };
    | Some (0, g) with s := {
        | [] := repl g
        | c :: s' := cat_res (repl g) (cat_res (inr [c]) (sub dotall r repl s')) };
    | None with s := {
        | [] := inr []
        | c :: s' := cat_res (inr [c]) (sub dotall r repl s') } }.
Proof.
  all: simpl; try lia.
  rewrite length_skipn. lia.
Qed.

End Re.
Import Re.

(** ** [html.unescape] and the code-block encoder *)

Module Html.

(** What the pipeline takes from the runtime and does not carry itself:
    the named references of [html.entities.html5] past the ones the encoder
    writes, the two tables of invalid numeric references, and the limit of
    [int] on the digits of a decimal string ([sys.get_int_max_str_digits()],
    4300 unless set otherwise, 0 for none, as in the versions that have no
    limit) with the [ValueError] raised past it, for a number of digits. *)
Record Tables : Type := {
  html5_rest : str -> option str;
  invalid_charrefs : N -> option str;
  invalid_codepoints : N -> bool;
  int_max_str_digits : nat;
  int_limit_error : nat -> exn
}.

Definition dquote : char := 34%N.

(** The entries of [html5] for the characters the encoder escapes. *)
Definition html5_core (name : str) : option str :=
  if str_eqb name (lit "amp;") then Some (lit "&")
  else if str_eqb name (lit "amp") then Some (lit "&")
  else if str_eqb name (lit "lt;") then Some (lit "<")
  else if str_eqb name (lit "lt") then Some (lit "<")
  else if str_eqb name (lit "gt;") then Some (lit ">")
  else if str_eqb name (lit "gt") then Some (lit ">")
  else if str_eqb name (lit "quot;") then Some [dquote]
  else if str_eqb name (lit "quot") then Some [dquote]
  else None.

Section Unescape.

Variable T : Tables.

Definition html5 (name : str) : option str :=
  match html5_core name with
  | Some v => Some v
  | None => html5_rest T name
  end.

Definition one (a : ascii) : char * char := (chr a, chr a).
Arguments one a%_char.

Definition digit_class : cclass := CSet false [(chr "0", chr "9")].
Definition hex_class : cclass :=
  CSet false [(chr "0", chr "9"); (chr "a", chr "f"); (chr "A", chr "F")].
Definition name_class : cclass :=
  CSet true [one "009"; one "010"; one "012"; one " "; one "<"; one "&";
             one "#"; one ";"].
Definition semi_opt : regex := RRep (CLit (chr ";")) 0 (Some 1) true.

(** [&(#[0-9]+;?|#[xX][0-9a-fA-F]+;?|[^\t\n\f <&#;]{1,32};?)] *)
Definition charref : regex :=
  RCat (RStr (lit "&"))
    (RGroup 1
       (RAlt (RCat (RStr (lit "#"))
                (RCat (RRep digit_class 1 None true) semi_opt))
          (RAlt (RCat (RStr (lit "#"))
                   (RCat (RChar (CSet false [one "x"; one "X"]))
                      (RCat (RRep hex_class 1 None true) semi_opt)))
             (RCat (RRep name_class 1 (Some 32) true) semi_opt)))).

Definition digit_val (c : char) : N :=
  (if (chr "0" <=? c) && (c <=? chr "9") then c - chr "0"
   else if (chr "a" <=? c) && (c <=? chr "f") then c - chr "a" + 10
   else if (chr "A" <=? c) && (c <=? chr "F") then c - chr "A" + 10
   else 0)%N.

(** [int(s, base)] on a non-empty string of digits, for the bases 10 and
    16: a decimal string longer than the limit is refused (the limit is not
    looked at below 641 digits, and never for base 16, a power of two). *)
Definition int_of (base : N) (s : str) : exn + N :=
  if (base =? 10)%N && (640 <? length s)
     && (0 <? int_max_str_digits T) && (int_max_str_digits T <? length s)
  then inl (int_limit_error T (length s))
  else inr (fold_left (fun acc c => acc * base + digit_val c)%N s 0%N).

Definition is_semi (c : char) : bool := char_eqb c (chr ";").

(** The loop [for x in range(len(s)-1, 1, -1)] of the named branch, [x]
    running down to 2. *)
Fixpoint longest_name (s : str) (x : nat) : option str :=
  match x with
  | 0 => None
  | S x' =>
      match x' with
      | 0 => None
      | S _ =>
          match html5 (firstn x s) with
          | Some v => Some (v ++ skipn x s)
          | None => longest_name s x'
          end
      end
  end.

Definition numeric_charref (num : N) : str :=
  match invalid_charrefs T num with
  | Some v => v
  | None =>
      if ((55296 <=? num) && (num <=? 57343) || (1114111 <? num))%N
      then [65533%N]
      else if invalid_codepoints T num then []
      else [num]
  end.

Definition named_charref (s : str) : str :=
  match html5 s with
  | Some v => v
  | None =>
      match longest_name s (length s - 1) with
      | Some v => v
      | None => lit "&" ++ s
      end
  end.

(** [_replace_charref], on the groups of a match of [charref] (group 1 is
    never empty). *)
Definition replace_charref (g : caps) : exn + str :=
  let s := group 1 g in
  if startswith (lit "#") s then
    let num :=
      if startswith (lit "x") (skipn 1 s) || startswith (lit "X") (skipn 1 s)
      then int_of 16 (rstrip_by is_semi (skipn 2 s))
      else int_of 10 (rstrip_by is_semi (skipn 1 s)) in
    match num with
    | inl e => inl e
    | inr num => inr (numeric_charref num)
    end
  else inr (named_charref s).

Definition unescape (s : str) : exn + str :=
  if negb (contains (chr "&") s) then inr s
  else sub false charref replace_charref s.

End Unescape.

(** The escaping of a code block's text by the markdown renderer (its
    [fenced_code] and [codehilite] extensions both do these four
    replacements, in this order). *)
Definition escape (txt : str) : str :=
  let txt := replace (chr "&") (lit "&amp;") txt in
  let txt := replace (chr "<") (lit "&lt;") txt in
  let txt := replace (chr ">") (lit "&gt;") txt in
  let txt := replace dquote (lit "&quot;") txt in
  txt.

(** What the encoder writes for one character. *)
Definition escape_char (c : char) : str :=
  if char_eqb c (chr "&") then lit "&amp;"
  else if char_eqb c (chr "<") then lit "&lt;"
  else if char_eqb c (chr ">") then lit "&gt;"
  else if char_eqb c dquote then lit "&quot;"
  else [c].

(** Tables with nothing past the entries above, and the limit as it is
    set at the start (the text of the error is cut short). *)
Definition core_tables : Tables :=
  {| html5_rest := fun _ => None;
     invalid_charrefs := fun _ => None;
     invalid_codepoints := fun _ => false;
     int_max_str_digits := 4300;
     int_limit_error := fun _ =>
       lit "Exceeds the limit (4300 digits) for integer string conversion" |}.

End Html.

(** ** The diagram block transformer *)

Module Mermaid.

Import Html.

(** [<pre[^>]*><code class="language-mermaid">(.*?)</code></pre>] *)
Definition pattern : regex :=
  RCat (RStr (lit "<pre"))
    (RCat (RRep (CSet true [(chr ">", chr ">")]) 0 None true)
       (RCat (RStr (lit "><code class=" ++ dquote :: lit "language-mermaid"
                      ++ dquote :: lit ">"))
          (RCat (RGroup 1 (RRep CDot 0 None false))
             (RStr (lit "</code></pre>"))))).

Section Transformer.

Variable T : Tables.

(** [html.unescape] may raise, and then so does the function. *)
Definition replace_mermaid (g : caps) : exn + str :=
  match unescape T (group 1 g) with
  | inl e => inl e
  | inr mermaid_code =>
      inr (lit "<div class=" ++ dquote :: lit "mermaid" ++ dquote :: lit ">"
             ++ mermaid_code ++ lit "</div>")
  end.

(** [re.sub(pattern, replace_mermaid, html_content, flags=re.DOTALL)] *)
Definition process_mermaid_blocks (html_content : str) : exn + str :=
  sub true pattern replace_mermaid html_content.

End Transformer.

(** *** What the claims speak of

    The texts below are written out on their own, and not taken from the
    definitions above. *)

(** The three fixed parts of a diagram block as the renderer writes it. *)
Definition pre_open : str := lit "<pre".
Definition code_open : str :=
  lit "><code class=" ++ dquote :: lit "language-mermaid" ++ dquote :: lit ">".
Definition code_close : str := lit "</code></pre>".

(** A span of the pattern's form begins at the start of [s]: an opening
    [<pre ...>] tag, the code tag of a diagram, some body, the two closing
    tags. *)
Definition span_here (s : str) : Prop :=
  exists attrs body rest,
    no_char (chr ">") attrs /\
    s = pre_open ++ attrs ++ code_open ++ body ++ code_close ++ rest.

(** A span of that form begins at offset [i] of [s]. *)
Definition span_at (i : nat) (s : str) : Prop := span_here (skipn i s).

(** The offsets, counted from [k], at which the pattern matches in [s]. *)
Fixpoint span_offsets (k : nat) (s : str) : list nat :=
  (match match_at true pattern s with Some _ => [k] | None => [] end)
    ++ match s with
       | [] => []
       | _ :: s' => span_offsets (S k) s'
       end.

(** The span with attributes [attrs] and (escaped) body [e], and the
    element that replaces it. *)
Definition mermaid_span (attrs e : str) : str :=
  pre_open ++ attrs ++ code_open ++ e ++ code_close.

Definition mermaid_div (b : str) : str :=
  lit "<div class=" ++ dquote :: lit "mermaid" ++ dquote :: lit ">"
    ++ b ++ lit "</div>".

(** *** A sample page *)

Definition sample_attrs : str :=
  lit " class=" ++ dquote :: lit "codehilite" ++ [dquote].
Definition sample_body : str :=
  lit "graph TD" ++ chr "010" :: lit "    A[Start] --> B[" ++ dquote
    :: lit "a & b" ++ dquote :: lit "]" ++ [chr "010"].
Definition sample_body2 : str := lit "sequenceDiagram" ++ chr "010" :: lit "A->>B: <hi>".
Definition sample_head : str := lit "<h1>Test</h1>" ++ [chr "010"].
Definition sample_between : str :=
  chr "010" :: lit "<pre><code>x &lt; y</code></pre>" ++ [chr "010"].
Definition sample_tail : str := chr "010" :: lit "<p>End of test.</p>".

End Mermaid.

(** ** [str.title] *)

Module Title.

(** Case data of the characters past ASCII, from the runtime's Unicode
    database: whether a character is cased, its title-case mapping, and its
    lower-case mapping at a position of a string (the mapping of a capital
    sigma looks at its neighbours). *)
Record CaseTables : Type := {
  uni_cased : char -> bool;
  uni_title : char -> str;
  uni_lower : str -> nat -> char -> str
}.

Definition is_upper (c : char) : bool := ((chr "A" <=? c) && (c <=? chr "Z"))%N.
Definition is_lower (c : char) : bool := ((chr "a" <=? c) && (c <=? chr "z"))%N.
Definition is_ascii (c : char) : bool := (c <=? 127)%N.

Section Title.

Variable U : CaseTables.

Definition is_cased (c : char) : bool :=
  if is_ascii c then is_upper c || is_lower c else uni_cased U c.

Definition to_title (c : char) : str :=
  if is_ascii c then [if is_lower c then (c - 32)%N else c]
  else uni_title U c.

Definition to_lower (whole : str) (i : nat) (c : char) : str :=
  if is_ascii c then [if is_upper c then (c + 32)%N else c]
  else uni_lower U whole i c.

(** The loop of [do_title]: a character that follows a cased one is
    lower-cased, any other is title-cased. *)
Fixpoint do_title (whole : str) (i : nat) (previous_is_cased : bool)
                  (s : str) : str :=
  match s with
  | [] => []
  | c :: s' =>
      (if previous_is_cased then to_lower whole i c else to_title c)
        ++ do_title whole (S i) (is_cased c) s'
  end.

Definition title (s : str) : str := do_title s 0 false s.

End Title.

End Title.

(** ** [urllib.parse.unquote] *)

Module Unquote.

Section Unquote.

(** [bytes.decode('utf-8', 'replace')], the decoder of the runtime. *)
Variable decode : list N -> str.

Definition is_hexdig (c : N) : bool :=
  in_ranges c [(chr "0", chr "9"); (chr "A", chr "F"); (chr "a", chr "f")].

(** One item of [bits[1:]]: [_hextobyte[item[:2]] + item[2:]], or the
    percent sign put back when the two characters are not hex digits. *)
Definition unquote_item (item : list N) : list N :=
  match item with
  | a :: b :: rest =>
      if is_hexdig a && is_hexdig b
      then (16 * Html.digit_val a + Html.digit_val b)%N :: rest
      else chr "%" :: item
  | _ => chr "%" :: item
  end.

(** [unquote_to_bytes] on an ASCII string, whose UTF-8 encoding is the
    string itself. *)
Definition unquote_to_bytes (string : str) : list N :=
  match string with
  | [] => []
  | _ =>
      match split (chr "%") string with
      | [] => string
      | [_] => string
      | b0 :: items => b0 ++ flat_map unquote_item items
      end
  end.

Definition flush (run : str) : str :=
  match run with
  | [] => []
  | _ => decode (unquote_to_bytes run)
  end.

(** The pieces of [_asciire.split(string)], joined: every maximal run of
    ASCII characters is unquoted and decoded, the characters between the
    runs are kept. [run] is the ASCII run read so far. *)
Fixpoint unquote_scan (run : str) (s : str) : str :=
  match s with
  | [] => flush run
  | c :: s' =>
      if (c <=? 127)%N then unquote_scan (run ++ [c]) s'
      else flush run ++ c :: unquote_scan [] s'
  end.

Definition unquote (string : str) : str :=
  if negb (contains (chr "%") string) then string
  else unquote_scan [] string.

End Unquote.

End Unquote.

(** ** [pathlib] paths *)

Module Pathlib.

(** A [PurePosixPath]: its anchor (empty, one slash or two) and its
    components. *)
Record Path : Type := { anchor : str; parts : list str }.

Definition is_part (w : str) : bool :=
  negb (str_eqb w [] || str_eqb w (lit ".")).

(** [Path(s)]: empty components and single dots go, [..] stays. *)
Definition parse (s : str) : Path :=
  {| anchor :=
       if startswith (lit "//") s && negb (startswith (lit "///") s)
       then lit "//"
       else if startswith (lit "/") s then lit "/" else [];
     parts := filter is_part (split (chr "/") s) |}.

(** [a / b]: an anchored right operand replaces the left one. *)
Definition truediv (a : Path) (b : str) : Path :=
  let pb := parse b in
  match anchor pb with
  | [] => {| anchor := anchor a; parts := parts a ++ parts pb |}
  | _ => pb
  end.

(** The place a path names when it is read name by name: [..] steps back
    to the parent, and stays at the top there. Symbolic links are not
    followed: this is the place by the names alone. *)
Definition resolve (p : Path) : list str :=
  rev (fold_left
         (fun acc w => if str_eqb w (lit "..") then tl acc else w :: acc)
         (parts p) []).

Fixpoint is_prefix (a b : list str) : bool :=
  match a, b with
  | [], _ => true
  | x :: a', y :: b' => str_eqb x y && is_prefix a' b'
  | _ :: _, [] => false
  end.

(** [p] is at or below the directory [root]. *)
Definition inside (root p : Path) : bool :=
  is_prefix (resolve root) (resolve p).

End Pathlib.

(** ** The request handler *)

Module Handler.

Import Html Mermaid Pathlib.

(** What the base handler writes to the client. *)
Inductive static_event : Type :=
| StaticError (code : N) (message : str)
| StaticResponse (code : N)
| StaticBody (data : list N).

(** What a request does to the world outside, in order. *)
Inductive event : Type :=
| FsExists (p : Path)                     (* [file_path.exists()] *)
| FsRead (p : Path)                       (* [open(file_path)] and [f.read()] *)
| MdConvert (text : str)                  (* [markdown.Markdown(...)], [md.convert(content)] *)
| SendError (code : N) (message : str)    (* [self.send_error] *)
| SendResponse (code : N)
| SendHeader (keyword value : str)
| EndHeaders
| WfileWrite (text : str)                 (* the UTF-8 bytes of [text] *)
| SuperGET (raw : str)                    (* [super().do_GET()] *)
| Static (ev : static_event).             (* what the base handler does then *)

(** The fixed text of [HTML_TEMPLATE] before [{title}], between the two
    fields and after [{content}] (with its doubled braces single). *)
Record Template : Type := { tpl_head : str; tpl_mid : str; tpl_tail : str }.

(** [HTML_TEMPLATE.format(title=..., content=...)] *)
Definition format (t : Template) (title content : str) : str :=
  tpl_head t ++ title ++ tpl_mid t ++ content ++ tpl_tail t.

(** The runtime and the disk, as one request sees them. Writing to the
    socket is taken not to fail; every other call that can raise is there
    with its exception. *)
Record World : Type := {
  MARKDOWN_AVAILABLE : bool;
  docs_root : Path;
  HTML_TEMPLATE : Template;
  (** [Path.exists()]: an [OSError] of [stat] other than the ones of a
      missing file is raised again. *)
  fs_exists : Path -> exn + bool;
  fs_read : Path -> exn + str;
  md_convert : str -> exn + str;
  (** [SimpleHTTPRequestHandler.do_GET] for a raw request path: what it
      writes, and the exception it ends with, if any. *)
  base_do_GET : str -> list static_event * (exn + unit);
  entities : Tables;
  cases : Title.CaseTables;
  utf8_decode : list N -> str;
  (** The request line named no version ([HTTP/0.9]): no status line is
      written. *)
  http09 : bool;
  (** The [UnicodeEncodeError] of [str.encode], for a codec and a text. *)
  encode_error : str -> str -> exn
}.

(** *** Effects: a trace of events and a result or an exception *)

Definition M (A : Type) : Type := (list event * (exn + A))%type.

Definition ret {A} (a : A) : M A := ([], inr a).

Definition raise {A} (e : exn) : M A := ([], inl e).

Definition bind {A B} (m : M A) (f : A -> M B) : M B :=
  match m with
  | (t, inl e) => (t, inl e)
  | (t, inr a) => let (t', r) := f a in (t ++ t', r)
  end.

Definition emit (ev : event) : M unit := ([ev], inr tt).

(** An operation of the world that returns or raises. *)
Definition call {A} (ev : event) (r : exn + A) : M A := ([ev], r).

(** A computation of the program that returns or raises. *)
Definition lift {A} (r : exn + A) : M A := ([], r).

(** [try: m except Exception as e: h e] *)
Definition try_except {A} (m : M A) (h : exn -> M A) : M A :=
  match m with
  | (t, inl e) => let (t', r) := h e in (t ++ t', r)
  | (t, inr a) => (t, inr a)
  end.

Notation "x <- m ;; k" := (bind m (fun x => k))
  (at level 61, m at next level, right associativity).
Notation "m ;;; k" := (bind m (fun _ => k))
  (at level 61, right associativity).

Definition trace {A} (m : M A) : list event := fst m.
Definition result {A} (m : M A) : exn + A := snd m.

Section Handler.

Variable w : World.

(** Lines 417-419: the title from the first heading, or the default. *)
Definition page_title (content : str) : str :=
  if startswith (lit "#") content
  then strip (lstrip_by (char_eqb (chr "#"))
                        (hd [] (split (chr "010") content)))
  else lit "Documentation".

(** One turn of the loop over [parts[:-1]], on the pair of [current_path]
    and [breadcrumb_parts]. *)
Definition breadcrumb_step (st : str * list str) (part : str) : str * list str :=
  let (current_path, breadcrumb_parts) := st in
  let current_path := current_path ++ lit "/" ++ part in
  let part_name := Title.title (cases w) (replace (chr "_") (lit " ") part) in
  (current_path,
   breadcrumb_parts
     ++ [lit "<a href=" ++ dquote :: current_path ++ lit "/" ++ dquote
           :: lit ">" ++ part_name ++ lit "</a>"]).

Definition generate_breadcrumb (path : str) : str :=
  let parts := split (chr "/") (strip_by (char_eqb (chr "/")) path) in
  let breadcrumb_parts :=
    [lit "<a href=" ++ dquote :: lit "/" ++ dquote :: lit ">Home</a>"] in
  let current_path := [] in
  let (_, breadcrumb_parts) :=
    fold_left breadcrumb_step (removelast parts)
              (current_path, breadcrumb_parts) in
  if 1 <? length breadcrumb_parts
  then lit "<div class=" ++ dquote :: lit "breadcrumb" ++ dquote :: lit ">"
         ++ join (lit " > ") breadcrumb_parts ++ lit "</div>"
  else [].

(** [text.encode('latin-1', 'strict')] and [text.encode('utf-8')] go
    through for these texts. *)
Definition latin1_ok (text : str) : bool :=
  forallb (fun c => c <=? 255)%N text.

Definition utf8_ok (text : str) : bool :=
  forallb (fun c => negb ((55296 <=? c) && (c <=? 57343)))%N text.

(** [self.send_error(code, message)]: the message goes into the status
    line, which [send_response_only] encodes as latin-1 before anything is
    written (it writes no status line for [HTTP/0.9]). *)
Definition send_error (code : N) (message : str) : M unit :=
  if http09 w || latin1_ok message then emit (SendError code message)
  else raise (encode_error w (lit "latin-1") message).

(** [self.wfile.write(full_html.encode('utf-8'))] *)
Definition wfile_write (full_html : str) : M unit :=
  if utf8_ok full_html then emit (WfileWrite full_html)
  else raise (encode_error w (lit "utf-8") full_html).

(** The body of the [try] block of [serve_markdown]. *)
Definition render (file_path : Path) (path : str) : M bool :=
  content <- call (FsRead file_path) (fs_read w file_path) ;;
  html_content <- call (MdConvert content) (md_convert w content) ;;
  html_content <- lift (process_mermaid_blocks (entities w) html_content) ;;
  let title := page_title content in
  let breadcrumb := generate_breadcrumb path in
  let full_html :=
    format (HTML_TEMPLATE w) title
      (breadcrumb ++ lit "<div class=" ++ dquote :: lit "content" ++ dquote
         :: lit ">" ++ html_content ++ lit "</div>") in
  emit (SendResponse 200) ;;;
  emit (SendHeader (lit "Content-type") (lit "text/html; charset=utf-8")) ;;;
  emit EndHeaders ;;;
  wfile_write full_html ;;;
  ret true.

Definition serve_markdown (path : str) : M bool :=
  if negb (MARKDOWN_AVAILABLE w) then
    send_error 500 (lit "Markdown rendering not available") ;;;
    ret true
  else
    let path := if startswith (lit "/") path then skipn 1 path else path in
    let file_path := truediv (docs_root w) path in
    present <- call (FsExists file_path) (fs_exists w file_path) ;;
    if negb present then ret false
    else
      try_except (render file_path path)
        (fun e =>
           send_error 500 (lit "Error rendering markdown: " ++ e) ;;;
           ret true).

(** [super().do_GET()], on the raw [self.path], which [do_GET] does not
    change. *)
Definition super_do_GET (raw : str) : M unit :=
  emit (SuperGET raw) ;;;
  (List.map Static (fst (base_do_GET w raw)), snd (base_do_GET w raw)).

(** The path [do_GET] works with, from the raw [self.path]. *)
Definition normalize (raw : str) : str :=
  let path := Unquote.unquote (utf8_decode w) raw in
  let path :=
    if contains (chr "?") path then hd [] (split (chr "?") path) else path in
  let path :=
    if contains (chr "#") path then hd [] (split (chr "#") path) else path in
  let path := if str_eqb path (lit "/") then lit "/index.html" else path in
  path.

Definition do_GET (raw : str) : M unit :=
  let path := normalize raw in
  if endswith (lit ".html") path then
    let md_path := firstn (length path - 5) path ++ lit ".md" in
    served <- serve_markdown md_path ;;
    if served then ret tt else super_do_GET raw
  else super_do_GET raw.

End Handler.

(** *** What the claims speak of

    The texts and the letter cases below are written out on their own, and
    not taken from the definitions above. *)

Definition newline : char := chr "010".

(** ASCII letters, and a word with its first letter in upper case and the
    others in lower case. *)
Definition is_letter (c : char) : bool :=
  ((65 <=? c) && (c <=? 90) || (97 <=? c) && (c <=? 122))%N.
Definition upper (c : char) : char :=
  if ((97 <=? c) && (c <=? 122))%N then (c - 32)%N else c.
Definition lower (c : char) : char :=
  if ((65 <=? c) && (c <=? 90))%N then (c + 32)%N else c.
Definition capitalize (word : str) : str :=
  match word with
  | [] => []
  | c :: rest => upper c :: List.map lower rest
  end.

Definition is_word (word : str) : Prop :=
  word <> [] /\ forallb is_letter word = true.

(** Title case, position by position: a character that follows a cased
    character (a letter) is put in lower case, any other in upper case
    (title case). Past ASCII the case data is the runtime's. *)
Definition cased (U : Title.CaseTables) (c : char) : bool :=
  if (c <=? 127)%N then is_letter c else Title.uni_cased U c.

Definition title_at (U : Title.CaseTables) (s : str) (i : nat) : str :=
  let c := nth i s 0%N in
  let follows_cased :=
    match i with
    | 0 => false
    | S j => cased U (nth j s 0%N)
    end in
  if (c <=? 127)%N then [if follows_cased then lower c else upper c]
  else if follows_cased then Title.uni_lower U s i c else Title.uni_title U c.

Definition title_case (U : Title.CaseTables) (s : str) : str :=
  flat_map (title_at U s) (seq 0 (length s)).

(** The label of a directory: underscores to spaces, then title case. *)
Definition label (w : World) (part : str) : str :=
  title_case (cases w) (replace (chr "_") (lit " ") part).

(** The label with each word capitalized, the words being what the spaces
    separate. *)
Definition capitalized_label (part : str) : str :=
  join (lit " ")
    (List.map capitalize (split (chr " ") (replace (chr "_") (lit " ") part))).

(** The two kinds of entries of a trail. *)
Definition home_link : str :=
  lit "<a href=" ++ dquote :: lit "/" ++ dquote :: lit ">Home</a>".

Definition part_link (current_path part_name : str) : str :=
  lit "<a href=" ++ dquote :: current_path ++ lit "/" ++ dquote :: lit ">"
    ++ part_name ++ lit "</a>".

(** The path accumulated over the directories [dirs]. *)
Definition prefix_of (dirs : list str) : str :=
  flat_map (fun d => lit "/" ++ d) dirs.

(** The entries of the trail of a file below the directories [dirs]: Home,
    then one link for each directory, to the prefix that ends with it,
    under the label [lbl] gives. *)
Definition trail_with (lbl : str -> str) (dirs : list str) : list str :=
  home_link
    :: List.map (fun k => part_link (prefix_of (firstn (S k) dirs))
                            (lbl (nth k dirs [])))
         (seq 0 (length dirs)).

Definition trail (w : World) (dirs : list str) : list str :=
  trail_with (label w) dirs.

Definition breadcrumb_open : str :=
  lit "<div class=" ++ dquote :: lit "breadcrumb" ++ dquote :: lit ">".

(** The sentence on the breadcrumb with its labels read as written: each
    word, as the spaces separate them, capitalized. *)
Definition capitalized_breadcrumb_claim : Prop :=
  forall w dirs file,
    Forall (no_char (chr "/")) dirs ->
    no_char (chr "/") file ->
    file <> [] ->
    hd file dirs <> [] ->
    generate_breadcrumb w (join (lit "/") (dirs ++ [file]))
    = match dirs with
      | [] => []
      | _ => breadcrumb_open
               ++ join (lit " > ") (trail_with capitalized_label dirs)
               ++ lit "</div>"
      end.

(** A string without white space at either end. *)
Definition trimmed (s : str) : Prop :=
  match s with
  | [] => True
  | c :: _ => is_space c = false /\ is_space (last s c) = false
  end.

(** [/] stands for the index page. *)
Definition root_to_index (path : str) : str :=
  if str_eqb path (lit "/") then lit "/index.html" else path.






(** The name below the root and the place on the disk that
    [serve_markdown] works with, for the path it is given. *)
Definition relative (md_path : str) : str :=
  if startswith (lit "/") md_path then skipn 1 md_path else md_path.

Definition file_path_of (w : World) (md_path : str) : Path :=
  truediv (docs_root w) (relative md_path).

(** The markdown file a normalized path ending in [.html] stands for. *)
Definition md_path_of (path : str) : str :=
  firstn (length path - 5) path ++ lit ".md".

Definition md_relative (path : str) : str := relative (md_path_of path).

Definition md_candidate (w : World) (path : str) : Path :=
  file_path_of w (md_path_of path).

(** The page a successful render sends, for the fragment [diagrams_html]
    that the diagram transformer hands on: the template around the title,
    the breadcrumb and the content. *)
Definition page (w : World) (path content diagrams_html : str) : str :=
  tpl_head (HTML_TEMPLATE w) ++ page_title content ++ tpl_mid (HTML_TEMPLATE w)
    ++ (generate_breadcrumb w path ++ lit "<div class=" ++ dquote
          :: lit "content" ++ dquote :: lit ">" ++ diagrams_html
          ++ lit "</div>")
    ++ tpl_tail (HTML_TEMPLATE w).

Definition ok_response (body : str) : list event :=
  [SendResponse 200;
   SendHeader (lit "Content-type") (lit "text/html; charset=utf-8");
   EndHeaders; WfileWrite body].

Definition unavailable_message : str := lit "Markdown rendering not available".
Definition render_error (e : exn) : str := lit "Error rendering markdown: " ++ e.

(** The 404 of the base handler. *)
Definition file_not_found : static_event :=
  StaticError 404 (lit "File not found").

(** A text of characters up to U+00FF, which a status line can carry, and
    a text without surrogate code points, which has a UTF-8 form. *)
Definition latin1 (text : str) : Prop := Forall (fun c => (c <= 255)%N) text.







(** *** Sample worlds *)

Definition plain_cases : Title.CaseTables :=
  {| Title.uni_cased := fun _ => false;
     Title.uni_title := fun c => [c];
     Title.uni_lower := fun _ _ c => [c] |}.

Definition sample_template : Template :=
  {| tpl_head := lit "<html><title>";
     tpl_mid := lit "</title><body>";
     tpl_tail := lit "</body></html>" |}.

(** A renderer that wraps the text in a paragraph and refuses a text that
    begins with an exclamation mark. *)
Definition toy_convert (text : str) : exn + str :=
  if startswith (lit "!") text then inl (lit "bad markup")
  else inr (lit "<p>" ++ text ++ lit "</p>").

(** A disk: what reading gives, for each place that exists. *)
Definition disk : Type := list (list str * (exn + str)).

Fixpoint names_eqb (a b : list str) : bool :=
  match a, b with
  | [], [] => true
  | x :: a', y :: b' => str_eqb x y && names_eqb a' b'
  | _, _ => false
  end.

Fixpoint disk_find (d : disk) (place : list str) : option (exn + str) :=
  match d with
  | [] => None
  | (p, r) :: d' => if names_eqb p place then Some r else disk_find d' place
  end.

Fixpoint static_find (l : list (str * list N)) (raw : str) : option (list N) :=
  match l with
  | [] => None
  | (p, data) :: l' => if str_eqb p raw then Some data else static_find l' raw
  end.

(** A decoder of UTF-8 for sequences of up to three bytes; a byte that
    begins no such sequence gives U+FFFD. *)
Definition is_cont (b : N) : bool := ((128 <=? b) && (b <=? 191))%N.

Fixpoint utf8_short (bytes : list N) : str :=
  match bytes with
  | [] => []
  | b :: rest =>
      if (b <=? 127)%N then b :: utf8_short rest
      else
        match rest with
        | c1 :: rest1 =>
            if ((194 <=? b) && (b <=? 223))%N && is_cont c1
            then ((b - 192) * 64 + (c1 - 128))%N :: utf8_short rest1
            else
              match rest1 with
              | c2 :: rest2 =>
                  if ((224 <=? b) && (b <=? 239))%N && is_cont c1 && is_cont c2
                  then ((b - 224) * 4096 + (c1 - 128) * 64 + (c2 - 128))%N
                         :: utf8_short rest2
                  else 65533%N :: utf8_short rest
              | [] => 65533%N :: utf8_short rest
              end
        | [] => [65533%N]
        end
  end.

(** A world rooted at [/srv/docs], with a decoder, a disk and the files the
    base handler finds; the base handler sends the file it finds for the
    raw path, and its 404 otherwise. *)
Definition sample_world_with (decoder : list N -> str) (available : bool)
    (d : disk) (statics : list (str * list N)) : World :=
  {| MARKDOWN_AVAILABLE := available;
     docs_root := parse (lit "/srv/docs");
     HTML_TEMPLATE := sample_template;
     fs_exists := fun p =>
       inr (match disk_find d (resolve p) with Some _ => true | None => false end);
     fs_read := fun p =>
       match disk_find d (resolve p) with
       | Some r => r
       | None => inl (lit "No such file or directory")
       end;
     md_convert := toy_convert;
     base_do_GET := fun raw =>
       match static_find statics raw with
       | Some data => ([StaticResponse 200; StaticBody data], inr tt)
       | None => ([file_not_found], inr tt)
       end;
     entities := core_tables;
     cases := plain_cases;
     utf8_decode := decoder;
     http09 := false;
     encode_error := fun codec _ =>
       lit "codec can't encode character: " ++ codec |}.

(** The same with a decoder that gives each byte as the character of that
    number. *)
Definition sample_world (available : bool) (d : disk)
                        (statics : list (str * list N)) : World :=
  sample_world_with (fun bytes => bytes) available d statics.

Definition secret_disk : disk :=
  [([lit "srv"; lit "secret.md"], inr (lit "# Keys"));
   ([lit "srv"; lit "docs"; lit "index.md"], inr (lit "# Welcome"));
   ([lit "srv"; lit "docs"; lit "broken.md"], inr (lit "!oops"));
   ([lit "srv"; lit "docs"; lit "notes.md"], inl (lit "Is a directory"))].

(** A directory named with an arrow (U+2192) where a markdown file is
    looked for: reading it raises, and the message names it. *)
Definition arrow : char := 8594%N.

Definition arrow_disk : disk :=
  [([lit "srv"; lit "docs"; arrow :: lit ".md"],
    inl (lit "[Errno 21] Is a directory: '/srv/docs/" ++ arrow :: lit ".md'"))].

(** A markdown file that is one diagram block in HTML, which the renderer
    hands on as it is: the body is a decimal character reference of 4301
    digits. *)
Definition long_reference : str :=
  lit "&#" ++ repeat (chr "9") 4301 ++ lit ";".


(** A world in which the stat of one place fails for another reason than
    the file missing. *)
Definition long_name_world : World :=
  {| MARKDOWN_AVAILABLE := true;
     docs_root := parse (lit "/srv/docs");
     HTML_TEMPLATE := sample_template;
     fs_exists := fun p =>
       if names_eqb (resolve p) [lit "srv"; lit "docs"; lit "long.md"]
       then inl (lit "[Errno 36] File name too long")
       else inr false;
     fs_read := fun _ => inl (lit "No such file or directory");
     md_convert := toy_convert;
     base_do_GET := fun _ => ([file_not_found], inr tt);
     entities := core_tables;
     cases := plain_cases;
     utf8_decode := fun bytes => bytes;
     http09 := false;
     encode_error := fun codec _ =>
       lit "codec can't encode character: " ++ codec |}.

End Handler.

(** ** Further notions *)

Module Notions.

Import Html Mermaid Pathlib Handler.

(** [w] occurs in [s]. *)
Definition occurs (w s : str) : Prop := exists a b, s = a ++ w ++ b.

(** A page with any number of diagram blocks: each block comes with the
    text before it, its attributes and its body; [tail] is the text behind
    the last one. [page_of] is the page as the renderer writes it,
    [rendered_of] the page with the blocks as elements. *)
Fixpoint page_of (blocks : list (str * str * str)) (tail : str) : str :=
  match blocks with
  | [] => tail
  | (text, attrs, body) :: rest =>
      text ++ mermaid_span attrs (escape body) ++ page_of rest tail
  end.

Fixpoint rendered_of (blocks : list (str * str * str)) (tail : str) : str :=
  match blocks with
  | [] => tail
  | (text, attrs, body) :: rest =>
      text
        ++ (lit "<div class=" ++ dquote :: lit "mermaid" ++ dquote :: lit ">")
        ++ body ++ lit "</div>" ++ rendered_of rest tail
  end.

(** A text in which no block begins: the code tag of a diagram does not
    occur in it, and every [<pre] in it is followed by a [>] somewhere in
    it. Blocks of other languages are such texts. *)
Definition text_ok (text : str) : Prop :=
  ~ occurs code_open text
  /\ forall a b, text = a ++ pre_open ++ b -> ~ no_char (chr ">") b.

Definition block_ok (block : str * str * str) : Prop :=
  let '(text, attrs, body) := block in
  text_ok text /\ no_char (chr ">") attrs.

(** Some [<pre] in [s] has no [>] behind it, as a test. *)
Fixpoint dangling_pre (s : str) : bool :=
  match strip_prefix pre_open s with
  | Some b => negb (contains (chr ">") b)
  | None => false
  end
  || match s with
     | [] => false
     | _ :: s' => dangling_pre s'
     end.

(** What the except clause of [serve_markdown] does with an exception. *)
Definition except_clause (w : World) (e : exn) : M bool :=
  bind (send_error w 500 (lit "Error rendering markdown: " ++ e))
       (fun _ => ret true).

(** A run that goes on after the events [t]. *)
Definition after {A : Type} (t : list event) (m : M A) : M A :=
  (t ++ fst m, snd m).



(** The events of each kind: the existence test, the read of the file, the
    renderer, the handler's own error response, the call of the base
    handler. *)
Definition is_exists (ev : event) : bool :=
  match ev with FsExists _ => true | _ => false end.

Definition is_send_error (ev : event) : bool :=
  match ev with SendError _ _ => true | _ => false end.

Definition is_super (ev : event) : bool :=
  match ev with SuperGET _ => true | _ => false end.

Definition is_read (ev : event) : bool :=
  match ev with FsRead _ => true | _ => false end.

Definition is_convert (ev : event) : bool :=
  match ev with MdConvert _ => true | _ => false end.

Definition count (p : event -> bool) (t : list event) : nat :=
  length (filter p t).

(** A path made of plain names: no slash, not empty, not a dot. *)
Definition plain_name (name : str) : Prop :=
  no_char (chr "/") name /\ is_part name = true.

(** A decimal digit. *)
Definition is_digit (c : char) : Prop := (48 <= c <= 57)%N.

(** [w] occurs in [s], as a test. *)
Fixpoint occursb (w s : str) : bool :=
  startswith w s
  || match s with
     | [] => false
     | _ :: s' => occursb w s'
     end.

End Notions.

(** * Properties *)

(** ** Strings *)

Lemma char_eqb_eq (a b : char) : char_eqb a b = true <-> a = b.
Proof. apply N.eqb_eq. Qed.

Lemma char_eqb_neq (a b : char) : char_eqb a b = false <-> a <> b.
Proof. apply N.eqb_neq. Qed.

Lemma char_eqb_refl (a : char) : char_eqb a a = true.
Proof. apply N.eqb_refl. Qed.

Lemma strip_prefix_app (w s : str) : strip_prefix w (w ++ s) = Some s.
Proof.
  induction w as [|c w IH]; simpl; [reflexivity|].
  now rewrite char_eqb_refl.
Qed.

Lemma strip_prefix_some (w s s' : str) :
  strip_prefix w s = Some s' -> s = w ++ s'.
Proof.
  revert s; induction w as [|c w IH]; intros s H; simpl in *.
  - now inversion H.
  - destruct s as [|d s]; [discriminate|].
    destruct (char_eqb c d) eqn:E; [|discriminate].
    apply char_eqb_eq in E; subst d. f_equal. now apply IH.
Qed.

Lemma firstn_length_diff (A : Type) (w s : list A) :
  firstn (length (w ++ s) - length s) (w ++ s) = w.
Proof.
  rewrite length_app, Nat.add_sub.
  rewrite firstn_app, Nat.sub_diag, firstn_all. simpl. apply app_nil_r.
Qed.

Import Html Mermaid Pathlib Handler.

(** ** The matcher *)

Section MatcherFacts.

Variable dotall : bool.
Variable R : Type.

Lemma rep_some (k : cclass) (greedy : bool) (s : str) (cont : str -> option R) :
  forall lo hi x,
    rep dotall k greedy lo hi s cont = Some x ->
    exists a rest,
      s = a ++ rest /\ Forall (fun c => cmatch dotall k c = true) a /\
      cont rest = Some x.
Proof.
  induction s as [|c s IH]; intros lo hi x H.
  - exists [], []. simpl in H.
    destruct greedy, lo; try discriminate;
      try (destruct (cont []) eqn:E; [|discriminate]);
      repeat split; auto; congruence.
  - simpl in H.
    assert (Hstop : match lo with 0 => cont (c :: s) | S _ => None end = Some x ->
                    exists a rest, c :: s = a ++ rest /\
                      Forall (fun c => cmatch dotall k c = true) a /\
                      cont rest = Some x).
    { intros E. exists [], (c :: s). destruct lo; [auto | discriminate]. }

    assert (Hmore : (if may_take hi && cmatch dotall k c
                     then rep dotall k greedy (pred lo) (option_map pred hi) s cont
                     else None) = Some x ->
                    exists a rest, c :: s = a ++ rest /\
                      Forall (fun c => cmatch dotall k c = true) a /\
                      cont rest = Some x).
    { intros E.
      destruct (may_take hi && cmatch dotall k c) eqn:Ec; [|discriminate].
      apply andb_true_iff in Ec as [_ Ec].
      destruct (IH _ _ _ E) as (a & rest & -> & Ha & Hc).
      exists (c :: a), rest. auto. }
    destruct greedy.
    + destruct (if may_take hi && cmatch dotall k c then _ else None) eqn:E.
      * inversion H; subst. now apply Hmore.
      * now apply Hstop.
    + destruct (match lo with 0 => _ | S _ => None end) eqn:E.
      * inversion H; subst. now apply Hstop.
      * now apply Hmore.
Qed.

(** The greedy star hands the end of a run to its continuation when the
    continuation accepts there. *)
Lemma rep_greedy_run (k : cclass) (a rest : str) (cont : str -> option R) x :
  Forall (fun c => cmatch dotall k c = true) a ->
  (forall c s', rest = c :: s' -> cmatch dotall k c = false) ->
  cont rest = Some x ->
  rep dotall k true 0 None (a ++ rest) cont = Some x.
Proof.
  intros Ha Hr Hc. induction Ha as [|c a Hc1 Ha IH].
  - simpl. destruct rest as [|d rest]; simpl.
    + exact Hc.
    + rewrite (Hr d rest eq_refl). simpl. exact Hc.
  - simpl. rewrite Hc1. simpl. rewrite IH. reflexivity.
Qed.

(** The lazy star stops at the first place its continuation accepts. *)
Lemma rep_lazy_first (x rest : str) (cont : str -> option R) v :
  (forall c s', In c x -> cont (c :: s') = None) ->
  cont rest = Some v ->
  rep true CDot false 0 None (x ++ rest) cont = Some v.
Proof.
  intros Hx Hc. induction x as [|c x IH].
  - simpl. destruct rest; simpl; now rewrite Hc.
  - simpl. rewrite (Hx c (x ++ rest)) by (now left).
    apply IH. intros d s' Hd. apply Hx. now right.
Qed.

End MatcherFacts.

Lemma sub_unfold (E : Type) dotall r (repl : caps -> E + str) s :
  sub dotall r repl s =
  match match_at dotall r s, s with
  | Some (S n, g), _ :: s' => cat_res (repl g) (sub dotall r repl (skipn n s'))
  | Some (0, g), c :: s' =>
      cat_res (repl g) (cat_res (inr [c]) (sub dotall r repl s'))
  | Some (_, g), [] => repl g
  | None, c :: s' => cat_res (inr [c]) (sub dotall r repl s')
  | None, [] => inr []
  end.
Proof.
  simp sub. destruct (match_at dotall r s) as [[[|n] g]|]; destruct s; simpl; reflexivity.
Qed.

(** ** The texts of the pattern and of the element *)

Lemma pattern_eq :
  pattern
  = RCat (RStr pre_open)
      (RCat (RRep (CSet true [(chr ">", chr ">")]) 0 None true)
         (RCat (RStr code_open)
            (RCat (RGroup 1 (RRep CDot 0 None false))
               (RStr code_close)))).
Proof. reflexivity. Qed.

Lemma replace_mermaid_eq T g :
  replace_mermaid T g
  = match unescape T (group 1 g) with
    | inl e => inl e
    | inr b => inr (mermaid_div b)
    end.
Proof. reflexivity. Qed.

(** ** The pattern of a diagram block *)

Lemma cmatch_not_gt dotall c :
  cmatch dotall (CSet true [(chr ">", chr ">")]) c = true <-> c <> chr ">".
Proof.
  unfold cmatch, in_ranges. simpl. rewrite orb_false_r.
  change (chr ">") with 62%N.
  destruct (N.leb_spec 62 c), (N.leb_spec c 62); simpl; split; intros; try lia; try discriminate; auto.
Qed.

Lemma Forall_not_gt dotall a :
  Forall (fun c => cmatch dotall (CSet true [(chr ">", chr ">")]) c = true) a
  <-> no_char (chr ">") a.
Proof.
  unfold no_char. rewrite !Forall_forall.
  split; intros H c Hc; apply (cmatch_not_gt dotall), H, Hc.
Qed.

(** What a match of [pattern] at the start of [s] looks like. *)
Lemma match_at_pattern_some s n g :
  match_at true pattern s = Some (n, g) ->
  exists attrs body rest,
    no_char (chr ">") attrs /\
    s = pre_open ++ attrs ++ code_open ++ body ++ code_close ++ rest /\
    n = length (mermaid_span attrs body) /\ g = [(1, body)].
Proof.
  unfold match_at. rewrite pattern_eq. cbn [bt]. intros H.
  destruct (strip_prefix pre_open s) as [s1|] eqn:E1; [|discriminate].
  apply strip_prefix_some in E1.
  apply rep_some in H as (attrs & r1 & -> & Ha & H).
  destruct (strip_prefix code_open r1) as [s2|] eqn:E2; [|discriminate].
  apply strip_prefix_some in E2.
  apply rep_some in H as (body & r2 & -> & _ & H).
  destruct (strip_prefix code_close r2) as [rest|] eqn:E3; [|discriminate].
  apply strip_prefix_some in E3. subst.
  exists attrs, body, rest. apply Forall_not_gt in Ha.
  rewrite firstn_length_diff in H.
  replace (pre_open ++ attrs ++ code_open ++ body ++ code_close ++ rest)
    with (mermaid_span attrs body ++ rest) in H |- *
    by (unfold mermaid_span; now rewrite <- !app_assoc).
  rewrite length_app, Nat.add_sub in H.
  split; [assumption|]. split; [reflexivity|].
  injection H as <- <-. split; reflexivity.
Qed.

(** The match at a span whose body holds no [<]: the whole span, the body in
    group 1. *)
Lemma match_at_span attrs body rest :
  no_char (chr ">") attrs ->
  no_char (chr "<") body ->
  match_at true pattern (mermaid_span attrs body ++ rest)
  = Some (length (mermaid_span attrs body), [(1, body)]).
Proof.
  intros Ha Hb. unfold match_at, mermaid_span. rewrite pattern_eq. cbn [bt].
  rewrite <- !app_assoc. rewrite strip_prefix_app.
  erewrite rep_greedy_run; [reflexivity | now apply Forall_not_gt | |].
  - intros c s' E. unfold code_open in E. simpl in E. injection E as <- _.
    reflexivity.
  - rewrite strip_prefix_app.
    erewrite rep_lazy_first; [reflexivity | |].
    + intros c s' Hc. unfold no_char in Hb. rewrite Forall_forall in Hb.
      specialize (Hb c Hc).
      change code_close with (chr "<" :: lit "/code></pre>").
      cbn [strip_prefix].
      destruct (char_eqb (chr "<") c) eqn:E; [|reflexivity].
      apply char_eqb_eq in E. now subst.
    + rewrite strip_prefix_app. rewrite firstn_length_diff.
      f_equal. f_equal.
      replace (pre_open ++ attrs ++ code_open ++ body ++ code_close ++ rest)
        with (mermaid_span attrs body ++ rest)
        by (unfold mermaid_span; now rewrite <- !app_assoc).
      now rewrite length_app, Nat.add_sub.
Qed.

(** ** Character references of the encoder *)

Section RepFacts.
Variable dotall : bool.
Variable R : Type.

Lemma rep_exhausted k greedy (s : str) (cont : str -> option R) :
  rep dotall k greedy 0 (Some 0) s cont = cont s.
Proof.
  destruct s, greedy; simpl; try reflexivity; now destruct (cont _).
Qed.
End RepFacts.

Lemma length_diff (A : Type) (w s : list A) :
  length (w ++ s) - length s = length w.
Proof. now rewrite length_app, Nat.add_sub. Qed.


Ltac charref_entity name all :=
  intros rest; unfold match_at, charref;
  cbn -[Nat.sub length firstn];
  rewrite rep_exhausted;
  change (Some (length (all ++ rest) - length rest,
                [(1, firstn (length (name ++ rest) - length rest) (name ++ rest))])
          = Some (length all, [(1, name)]));
  now rewrite firstn_length_diff, length_diff.

Lemma match_at_charref_amp : forall rest,
  match_at false charref (lit "&amp;" ++ rest) = Some (5, [(1, lit "amp;")]).
Proof. charref_entity (lit "amp;") (lit "&amp;"). Qed.

Lemma match_at_charref_lt : forall rest,
  match_at false charref (lit "&lt;" ++ rest) = Some (4, [(1, lit "lt;")]).
Proof. charref_entity (lit "lt;") (lit "&lt;"). Qed.

Lemma match_at_charref_gt : forall rest,
  match_at false charref (lit "&gt;" ++ rest) = Some (4, [(1, lit "gt;")]).
Proof. charref_entity (lit "gt;") (lit "&gt;"). Qed.

Lemma match_at_charref_quot : forall rest,
  match_at false charref (lit "&quot;" ++ rest) = Some (6, [(1, lit "quot;")]).
Proof. charref_entity (lit "quot;") (lit "&quot;"). Qed.

Lemma match_at_charref_other c rest :
  c <> chr "&" -> match_at false charref (c :: rest) = None.
Proof.
  intros Hc. unfold match_at, charref. cbn [bt].
  change (lit "&") with [chr "&"]. cbn [strip_prefix].
  destruct (char_eqb (chr "&") c) eqn:E; [|reflexivity].
  apply char_eqb_eq in E. congruence.
Qed.

Lemma flat_map_flat_map (A B C : Type) (f : B -> list C) (g : A -> list B) l :
  flat_map f (flat_map g l) = flat_map (fun x => flat_map f (g x)) l.
Proof.
  induction l as [|x l IH]; simpl; [reflexivity|].
  now rewrite flat_map_app, IH.
Qed.

Lemma escape_flat_map txt : escape txt = flat_map escape_char txt.
Proof.
  unfold escape, replace. rewrite !flat_map_flat_map.
  apply flat_map_ext. intros c. unfold escape_char.
  destruct (char_eqb c (chr "&")) eqn:E1; [reflexivity|].
  cbn [flat_map app].
  destruct (char_eqb c (chr "<")) eqn:E2; [reflexivity|].
  cbn [flat_map app].
  destruct (char_eqb c (chr ">")) eqn:E3; [reflexivity|].
  cbn [flat_map app].
  destruct (char_eqb c dquote) eqn:E4; reflexivity.
Qed.

Section UnescapeFacts.

Variable T : Tables.

Lemma replace_charref_amp :
  replace_charref T [(1, lit "amp;")] = inr [chr "&"].
Proof. reflexivity. Qed.
Lemma replace_charref_lt :
  replace_charref T [(1, lit "lt;")] = inr [chr "<"].
Proof. reflexivity. Qed.
Lemma replace_charref_gt :
  replace_charref T [(1, lit "gt;")] = inr [chr ">"].
Proof. reflexivity. Qed.
Lemma replace_charref_quot :
  replace_charref T [(1, lit "quot;")] = inr [dquote].
Proof. reflexivity. Qed.

Lemma sub_charref_escape b :
  sub false charref (replace_charref T) (flat_map escape_char b) = inr b.
Proof.
  induction b as [|c b IH].
  - reflexivity.
  - cbn [flat_map]. unfold escape_char at 1.
    destruct (char_eqb c (chr "&")) eqn:E1.
    { apply char_eqb_eq in E1; subst c.
      rewrite sub_unfold, match_at_charref_amp, replace_charref_amp.
      cbn [lit List.map list_ascii_of_string app skipn]. now rewrite IH. }
    destruct (char_eqb c (chr "<")) eqn:E2.
    { apply char_eqb_eq in E2; subst c.
      rewrite sub_unfold, match_at_charref_lt, replace_charref_lt.
      cbn [lit List.map list_ascii_of_string app skipn]. now rewrite IH. }
    destruct (char_eqb c (chr ">")) eqn:E3.
    { apply char_eqb_eq in E3; subst c.
      rewrite sub_unfold, match_at_charref_gt, replace_charref_gt.
      cbn [lit List.map list_ascii_of_string app skipn]. now rewrite IH. }
    destruct (char_eqb c dquote) eqn:E4.
    { apply char_eqb_eq in E4; subst c.
      rewrite sub_unfold, match_at_charref_quot, replace_charref_quot.
      cbn [lit List.map list_ascii_of_string app skipn]. now rewrite IH. }
    cbn [app]. rewrite sub_unfold, match_at_charref_other.
    + now rewrite IH.
    + now apply char_eqb_neq.
Qed.

Lemma escape_char_plain b :
  contains (chr "&") (flat_map escape_char b) = false ->
  flat_map escape_char b = b.
Proof.
  induction b as [|c b IH]; [reflexivity|].
  cbn [flat_map]. unfold contains. rewrite existsb_app, orb_false_iff.
  intros [Hc Hb]. rewrite (IH Hb). revert Hc. unfold escape_char.
  destruct (char_eqb c (chr "&")); [discriminate|].
  destruct (char_eqb c (chr "<")); [discriminate|].
  destruct (char_eqb c (chr ">")); [discriminate|].
  destruct (char_eqb c dquote); [discriminate|]. reflexivity.
Qed.

(** Decoding undoes the encoder, and raises nothing on what the encoder
    writes. *)
Lemma unescape_escape b : unescape T (escape b) = inr b.
Proof.
  rewrite escape_flat_map. unfold unescape.
  destruct (contains (chr "&") (flat_map escape_char b)) eqn:E; cbn [negb].
  - apply sub_charref_escape.
  - f_equal. now apply escape_char_plain.
Qed.

Lemma escape_no_lt b : no_char (chr "<") (escape b).
Proof.
  rewrite escape_flat_map. unfold no_char.
  induction b as [|c b IH]; [constructor|].
  cbn [flat_map]. apply Forall_app. split; [|exact IH].
  unfold escape_char.
  destruct (char_eqb c (chr "&")); [repeat constructor; discriminate|].
  destruct (char_eqb c (chr "<")) eqn:E; [repeat constructor; discriminate|].
  destruct (char_eqb c (chr ">")); [repeat constructor; discriminate|].
  destruct (char_eqb c dquote); [repeat constructor; discriminate|].
  repeat constructor. now apply char_eqb_neq.
Qed.

End UnescapeFacts.

(** ** The diagram block transformer *)

Section TransformerFacts.

Variable T : Tables.

Lemma match_at_no_span s :
  ~ span_here s -> match_at true pattern s = None.
Proof.
  intros H. destruct (match_at true pattern s) as [[n g]|] eqn:E; [|reflexivity].
  exfalso. apply H.
  apply match_at_pattern_some in E as (attrs & body & rest & Ha & -> & _).
  now exists attrs, body, rest.
Qed.

Lemma process_nil : process_mermaid_blocks T [] = inr [].
Proof. reflexivity. Qed.

Lemma cat_res_app (E : Type) (x y : str) (r : E + str) :
  cat_res (inr x) (cat_res (inr y) r) = cat_res (inr (x ++ y)) r.
Proof. destruct r; simpl; [reflexivity|]. now rewrite app_assoc. Qed.

Lemma cat_res_nil (E : Type) (r : E + str) : cat_res (inr []) r = r.
Proof. now destruct r. Qed.

(** Text in which no span begins is copied as it is. *)
Lemma process_prefix p x :
  (forall i, i < length p -> ~ span_at i (p ++ x)) ->
  process_mermaid_blocks T (p ++ x)
  = cat_res (inr p) (process_mermaid_blocks T x).
Proof.
  induction p as [|c p IH]; intros H; [now rewrite cat_res_nil|].
  unfold process_mermaid_blocks in *. cbn [app].
  rewrite sub_unfold, match_at_no_span.
  - rewrite IH.
    + now rewrite cat_res_app.
    + intros i Hi. apply (H (S i)). simpl. lia.
  - apply (H 0). simpl. lia.
Qed.

Lemma process_no_span s :
  (forall i, ~ span_at i s) -> process_mermaid_blocks T s = inr s.
Proof.
  intros H. rewrite <- (app_nil_r s) at 1.
  rewrite process_prefix.
  - rewrite process_nil. simpl. now rewrite !app_nil_r.
  - intros i _. rewrite app_nil_r. apply H.
Qed.

(** A span whose body holds no [<] becomes the element with the decoded
    body, and the scan goes on behind it; an exception of the decoding is
    the outcome. *)
Lemma process_span attrs e rest :
  no_char (chr ">") attrs ->
  no_char (chr "<") e ->
  process_mermaid_blocks T (mermaid_span attrs e ++ rest)
  = cat_res (replace_mermaid T [(1, e)]) (process_mermaid_blocks T rest).
Proof.
  intros Ha He. unfold process_mermaid_blocks.
  rewrite sub_unfold, match_at_span by assumption.
  set (tl_span := lit "pre" ++ attrs ++ code_open ++ e ++ code_close).
  change (mermaid_span attrs e) with (chr "<" :: tl_span).
  cbn [length app]. do 2 f_equal.
  now rewrite skipn_app, skipn_all, Nat.sub_diag.
Qed.

(** The same for the body the encoder writes. *)
Lemma process_encoded_span attrs b rest :
  no_char (chr ">") attrs ->
  process_mermaid_blocks T (mermaid_span attrs (escape b) ++ rest)
  = cat_res (inr (mermaid_div b)) (process_mermaid_blocks T rest).
Proof.
  intros Ha. rewrite process_span by (auto using escape_no_lt).
  rewrite replace_mermaid_eq. cbn [group Nat.eqb].
  now rewrite unescape_escape.
Qed.

End TransformerFacts.

(** The lazy star succeeds as soon as its continuation accepts somewhere. *)
Lemma rep_lazy_complete (R : Type) (x rest : str) (cont : str -> option R) :
  cont rest <> None ->
  rep true CDot false 0 None (x ++ rest) cont <> None.
Proof.
  intros Hc. induction x as [|c x IH].
  - simpl. destruct rest; simpl; now destruct (cont _).
  - cbn [app rep]. destruct (cont (c :: x ++ rest)) as [u|]; [discriminate|].
    exact IH.
Qed.

(** The matcher finds every span. *)
Lemma match_at_span_here s :
  span_here s -> match_at true pattern s <> None.
Proof.
  intros (attrs & body & rest & Ha & ->).
  unfold match_at. rewrite pattern_eq. cbn [bt]. rewrite strip_prefix_app.
  match goal with |- rep _ _ _ _ _ _ ?k <> None => set (K := k) end.
  assert (HK : K (code_open ++ body ++ code_close ++ rest) <> None).
  { unfold K. rewrite strip_prefix_app. apply rep_lazy_complete.
    now rewrite strip_prefix_app. }
  destruct (K (code_open ++ body ++ code_close ++ rest)) as [v|] eqn:E;
    [|congruence].
  erewrite rep_greedy_run; [discriminate | now apply Forall_not_gt | | exact E].
  intros c s' E'. unfold code_open in E'. simpl in E'. injection E' as <- _.
  reflexivity.
Qed.

Lemma span_here_dec s :
  span_here s <-> match_at true pattern s <> None.
Proof.
  split.
  - apply match_at_span_here.
  - intros H. destruct (match_at true pattern s) as [[n g]|] eqn:E; [|congruence].
    apply match_at_pattern_some in E as (attrs & body & rest & Ha & -> & _).
    now exists attrs, body, rest.
Qed.

Lemma span_offsets_complete s : forall k i,
  span_at i s -> In (k + i) (span_offsets k s).
Proof.
  induction s as [|c s IH]; intros k i H.
  - unfold span_at in H. rewrite skipn_nil in H.
    apply span_here_dec in H. now elim H.
  - cbn [span_offsets]. apply in_or_app. destruct i as [|i].
    + left. unfold span_at in H. cbn [skipn] in H. apply span_here_dec in H.
      rewrite Nat.add_0_r.
      destruct (match_at true pattern (c :: s)); [now left | congruence].
    + right. replace (k + S i) with (S k + i) by lia. apply IH. exact H.
Qed.

Lemma skipn_app_exact (A : Type) (p x : list A) k :
  skipn (length p + k) (p ++ x) = skipn k x.
Proof.
  induction p as [|c p IH]; [reflexivity|]. exact IH.
Qed.

Lemma mermaid_span_length attrs e : 0 < length (mermaid_span attrs e).
Proof. unfold mermaid_span. rewrite length_app. simpl. lia. Qed.

Lemma mermaid_div_eq b :
  mermaid_div b
  = (lit "<div class=" ++ dquote :: lit "mermaid" ++ dquote :: lit ">")
      ++ b ++ lit "</div>".
Proof. reflexivity. Qed.

Section TransformerTheorems.

Variable T : Tables.

(** C1. A fragment [p ++ span ++ s] whose only span of the pattern's form is
    the one shown, with the encoder's output for a body [b] inside (any
    characters, newlines too), comes out as [p], the element
    [<div class="mermaid">b</div>] and [s]: the decoding gives [b] back,
    raises nothing, and nothing outside the span changes. *)
Theorem process_single_span (p attrs b s : str) :
  no_char (chr ">") attrs ->
  (forall i, span_at i (p ++ mermaid_span attrs (escape b) ++ s) ->
             i = length p) ->
  process_mermaid_blocks T (p ++ mermaid_span attrs (escape b) ++ s)
  = inr (p ++ (lit "<div class=" ++ dquote :: lit "mermaid" ++ dquote
                 :: lit ">") ++ b ++ lit "</div>" ++ s)
  /\ unescape T (escape b) = inr b.
Proof.
  intros Ha Honly. split; [|apply unescape_escape].
  rewrite process_prefix.
  - rewrite process_encoded_span by assumption.
    rewrite process_no_span.
    + cbn [cat_res]. rewrite mermaid_div_eq. now rewrite <- !app_assoc.
    + intros j Hj.
      pose proof (mermaid_span_length attrs (escape b)) as Hlen.
      assert (E : length p + (length (mermaid_span attrs (escape b)) + j)
                  = length p).
      { apply Honly. unfold span_at in *.
        now rewrite skipn_app_exact, skipn_app_exact. }
      lia.
  - intros i Hi Hspan. apply Honly in Hspan. lia.
Qed.

(** C2. Two spans with encoded bodies become two elements
    [<div class="mermaid">...</div>], each with its own decoded body, and
    the text before, between and behind them stays; a fragment in which no
    span begins comes out as it went in. *)
Theorem process_two_spans_or_none :
  (forall p a1 b1 m a2 b2 s,
      no_char (chr ">") a1 ->
      no_char (chr ">") a2 ->
      (forall i,
          span_at i (p ++ mermaid_span a1 (escape b1) ++ m
                       ++ mermaid_span a2 (escape b2) ++ s) ->
          i = length p \/
          i = length p + length (mermaid_span a1 (escape b1)) + length m) ->
      process_mermaid_blocks T
        (p ++ mermaid_span a1 (escape b1) ++ m
           ++ mermaid_span a2 (escape b2) ++ s)
      = inr (p ++ (lit "<div class=" ++ dquote :: lit "mermaid" ++ dquote
                     :: lit ">") ++ b1 ++ lit "</div>" ++ m
               ++ (lit "<div class=" ++ dquote :: lit "mermaid" ++ dquote
                     :: lit ">") ++ b2 ++ lit "</div>" ++ s)
      /\ unescape T (escape b1) = inr b1 /\ unescape T (escape b2) = inr b2)
  /\ (forall f, (forall i, ~ span_at i f) ->
                process_mermaid_blocks T f = inr f).
Proof.
  split; [|exact (@process_no_span T)].
  intros p a1 b1 m a2 b2 s Ha1 Ha2 Honly.
  split; [|split; apply unescape_escape].
  pose proof (mermaid_span_length a1 (escape b1)) as Hl1.
  pose proof (mermaid_span_length a2 (escape b2)) as Hl2.
  rewrite process_prefix.
  2:{ intros i Hi Hspan. apply Honly in Hspan. lia. }
  rewrite process_encoded_span by assumption.
  rewrite process_prefix.
  2:{ intros i Hi Hspan.
      assert (E : length p + (length (mermaid_span a1 (escape b1)) + i) = length p \/
                  length p + (length (mermaid_span a1 (escape b1)) + i)
                  = length p + length (mermaid_span a1 (escape b1)) + length m).
      { apply Honly. unfold span_at in *.
        now rewrite skipn_app_exact, skipn_app_exact. }
      lia. }
  rewrite process_encoded_span by assumption.
  rewrite process_no_span.
  - cbn [cat_res]. rewrite !mermaid_div_eq. now rewrite <- !app_assoc.
  - intros j Hj.
    set (l1 := length (mermaid_span a1 (escape b1))) in *.
    set (l2 := length (mermaid_span a2 (escape b2))) in *.
    assert (E : length p + (l1 + (length m + (l2 + j))) = length p \/
                length p + (l1 + (length m + (l2 + j))) = length p + l1 + length m).
    { apply Honly. unfold span_at in *. subst l1 l2.
      now rewrite !skipn_app_exact. }
    lia.
Qed.

End TransformerTheorems.

Lemma process_single_span_witness :
  process_mermaid_blocks core_tables
    (sample_head ++ mermaid_span sample_attrs (escape sample_body) ++ sample_tail)
  = inr (sample_head
           ++ (lit "<div class=" ++ dquote :: lit "mermaid" ++ dquote :: lit ">")
           ++ sample_body ++ lit "</div>" ++ sample_tail)
  /\ unescape core_tables (escape sample_body) = inr sample_body.
Proof.
  apply process_single_span.
  - repeat constructor; discriminate.
  - intros i H. apply span_offsets_complete with (k := 0) in H. vm_compute in H.
    destruct H as [<-|[]]. reflexivity.
Defined.

Lemma process_two_spans_or_none_witness :
  (process_mermaid_blocks core_tables
     (sample_head ++ mermaid_span sample_attrs (escape sample_body)
        ++ sample_between ++ mermaid_span [] (escape sample_body2)
        ++ sample_tail)
   = inr (sample_head
            ++ (lit "<div class=" ++ dquote :: lit "mermaid" ++ dquote :: lit ">")
            ++ sample_body ++ lit "</div>" ++ sample_between
            ++ (lit "<div class=" ++ dquote :: lit "mermaid" ++ dquote :: lit ">")
            ++ sample_body2 ++ lit "</div>" ++ sample_tail))
  /\ process_mermaid_blocks core_tables (sample_head ++ sample_between)
     = inr (sample_head ++ sample_between).
Proof.
  split.
  - refine (proj1 (proj1 (process_two_spans_or_none core_tables)
                     sample_head sample_attrs sample_body sample_between
                     [] sample_body2 sample_tail _ _ _)).
    + repeat constructor; discriminate.
    + constructor.
    + intros i H. apply span_offsets_complete with (k := 0) in H. vm_compute in H.
      destruct H as [<-|[<-|[]]]; [left | right]; reflexivity.
  - apply (proj2 (process_two_spans_or_none core_tables)).
    intros i H. apply span_offsets_complete with (k := 0) in H. vm_compute in H.
    exact H.
Defined.

(** ** Title derivation *)

Lemma split_nonempty c s : split c s <> [].
Proof.
  destruct s as [|x s]; simpl; [discriminate|].
  destruct (char_eqb x c); [discriminate|]. now destruct (split c s).
Qed.

Lemma hd_split c s : hd [] (split c s) = before c s.
Proof.
  induction s as [|x s IH]; [reflexivity|]. simpl.
  destruct (char_eqb x c); [reflexivity|].
  destruct (split c s) eqn:E; [now apply split_nonempty in E|].
  simpl in *. now rewrite IH.
Qed.

Lemma startswith_before c d s :
  c <> d -> startswith [c] (before d s) = startswith [c] s.
Proof.
  intros Hcd. destruct s as [|x s]; [reflexivity|]. simpl.
  destruct (char_eqb x d) eqn:E.
  - apply char_eqb_eq in E. subst x. unfold startswith. simpl.
    destruct (char_eqb c d) eqn:E'; [|reflexivity].
    apply char_eqb_eq in E'. contradiction.
  - unfold startswith. simpl. now destruct (char_eqb c x).
Qed.

Lemma lstrip_by_run p a rest :
  Forall (fun c => p c = true) a ->
  match rest with [] => True | c :: _ => p c = false end ->
  lstrip_by p (a ++ rest) = rest.
Proof.
  intros Ha Hr. induction Ha as [|c a Hc Ha IH]; simpl.
  - destruct rest as [|c rest]; [reflexivity|]. simpl. now rewrite Hr.
  - now rewrite Hc.
Qed.

Lemma rstrip_by_run p a core :
  Forall (fun c => p c = true) a ->
  match core with [] => True | c :: _ => p (last core c) = false end ->
  rstrip_by p (core ++ a) = core.
Proof.
  intros Ha Hr. unfold rstrip_by. rewrite rev_app_distr.
  rewrite lstrip_by_run.
  - apply rev_involutive.
  - now apply Forall_rev.
  - destruct core as [|c core]; [exact I|].
    destruct (rev (c :: core)) as [|x r] eqn:E.
    + exact I.
    + assert (Hx : x = last (c :: core) c).
      { rewrite <- (rev_involutive (c :: core)), E. simpl.
        now rewrite last_last. }
      now rewrite Hx.
Qed.

(** [strip] takes the white space off both ends. *)
Lemma strip_trimmed ws1 core ws2 :
  Forall (fun c => is_space c = true) ws1 ->
  Forall (fun c => is_space c = true) ws2 ->
  trimmed core ->
  strip (ws1 ++ core ++ ws2) = core.
Proof.
  intros H1 H2 Hc. unfold strip, strip_by.
  destruct core as [|c core].
  - cbn [app]. replace (ws1 ++ ws2) with ((ws1 ++ ws2) ++ [])
      by apply app_nil_r.
    rewrite lstrip_by_run; [reflexivity | | exact I].
    apply Forall_app. now split.
  - destruct Hc as [Hc1 Hc2]. rewrite lstrip_by_run; auto.
    apply rstrip_by_run; auto.
Qed.

(** C4. When the first line does not begin with a heading marker the title
    is the default; when it does, the title is that line without its
    leading markers and without the white space around what is left; a
    source that begins with the line [# Getting Started] has the title
    [Getting Started]. *)
Theorem page_title_spec :
  (forall content,
      startswith (lit "#") (before newline content) = false ->
      page_title content = lit "Documentation")
  /\ (forall content hashes ws1 core ws2,
         before newline content = hashes ++ ws1 ++ core ++ ws2 ->
         hashes <> [] ->
         Forall (fun c => c = chr "#") hashes ->
         Forall (fun c => is_space c = true) ws1 ->
         Forall (fun c => is_space c = true) ws2 ->
         trimmed core ->
         startswith (lit "#") (ws1 ++ core) = false ->
         page_title content = core)
  /\ (forall rest,
         page_title (lit "# Getting Started" ++ newline :: rest)
         = lit "Getting Started")
  /\ page_title (lit "# Getting Started") = lit "Getting Started".
Proof.
  split; [|split; [|split]].
  - intros content H. unfold page_title.
    change (lit "#") with [chr "#"] in *.
    rewrite startswith_before in H by discriminate. now rewrite H.
  - intros content hashes ws1 core ws2 Hline Hne Hh H1 H2 Hc Hmax.
    unfold page_title. rewrite hd_split. fold newline.
    change (lit "#") with [chr "#"] in *.
    rewrite <- (startswith_before (chr "#") newline) by discriminate.
    rewrite Hline.
    assert (Hs : startswith [chr "#"] (hashes ++ ws1 ++ core ++ ws2) = true).
    { destruct hashes as [|h hashes]; [contradiction|].
      pose proof (Forall_inv Hh) as Hh0. simpl in Hh0. subst h.
      unfold startswith. cbn [app strip_prefix]. now rewrite char_eqb_refl. }
    rewrite Hs.
    rewrite lstrip_by_run.
    + now apply strip_trimmed.
    + eapply Forall_impl; [|exact Hh]. intros c ->. apply char_eqb_refl.
    + assert (Hx : forall x, x <> chr "#" -> char_eqb (chr "#") x = false)
        by (intros x Hx; apply char_eqb_neq; congruence).
      destruct ws1 as [|x ws1]; [destruct core as [|x core]|]; cbn [app].
      * destruct ws2 as [|x ws2]; [exact I|]. apply Hx. intros ->.
        pose proof (Forall_inv H2) as H. discriminate.
      * apply Hx. intros ->. unfold startswith in Hmax. cbn in Hmax.
        discriminate.
      * apply Hx. intros ->. unfold startswith in Hmax. cbn in Hmax.
        discriminate.
  - intros rest. reflexivity.
  - reflexivity.
Qed.

Lemma page_title_spec_witness :
  page_title (lit "plain text" ++ newline :: lit "# late") = lit "Documentation"
  /\ page_title (lit "##  Two  words   " ++ newline :: lit "body") = lit "Two  words".
Proof.
  split.
  - apply (proj1 page_title_spec). reflexivity.
  - apply (proj1 (proj2 page_title_spec)) with
      (hashes := lit "##") (ws1 := lit "  ") (ws2 := lit "   ").
    + reflexivity.
    + discriminate.
    + repeat constructor.
    + repeat constructor.
    + repeat constructor.
    + split; reflexivity.
    + reflexivity.
Defined.

(** ** The breadcrumb *)

Lemma split_no_sep c w : no_char c w -> split c w = [w].
Proof.
  induction 1 as [|x w Hx Hw IH]; [reflexivity|]. simpl.
  apply char_eqb_neq in Hx. now rewrite Hx, IH.
Qed.

Lemma split_app_sep c w s :
  no_char c w -> split c (w ++ c :: s) = w :: split c s.
Proof.
  induction 1 as [|x w Hx Hw IH]; simpl.
  - now rewrite char_eqb_refl.
  - apply char_eqb_neq in Hx. now rewrite Hx, IH.
Qed.

Lemma join_cons2 sep a b l : join sep (a :: b :: l) = a ++ sep ++ join sep (b :: l).
Proof. reflexivity. Qed.

Lemma split_join c parts :
  parts <> [] -> Forall (no_char c) parts -> split c (join [c] parts) = parts.
Proof.
  intros Hne H. induction H as [|w parts Hw Hp IH]; [contradiction|].
  destruct parts as [|v parts].
  - now apply split_no_sep.
  - rewrite join_cons2. cbn [app]. rewrite split_app_sep by assumption.
    f_equal. apply IH. discriminate.
Qed.

Lemma join_snoc sep dirs file :
  join sep (dirs ++ [file]) = flat_map (fun d => d ++ sep) dirs ++ file.
Proof.
  induction dirs as [|d dirs IH]; [reflexivity|].
  cbn [app flat_map]. destruct dirs as [|d' dirs].
  - cbn [app flat_map join]. now rewrite app_nil_r, <- app_assoc.
  - change ((d' :: dirs) ++ [file]) with (d' :: (dirs ++ [file])) in *.
    rewrite join_cons2, IH. now rewrite <- !app_assoc.
Qed.

Lemma strip_by_id p s :
  match s with
  | [] => True
  | c :: _ => p c = false /\ p (last s c) = false
  end ->
  strip_by p s = s.
Proof.
  intros H. unfold strip_by. destruct s as [|c s]; [reflexivity|].
  destruct H as [H1 H2].
  cbn [lstrip_by]. rewrite H1.
  replace (rstrip_by p (c :: s)) with (rstrip_by p ((c :: s) ++ []))
    by now rewrite app_nil_r.
  apply rstrip_by_run; [constructor | exact H2].
Qed.

Lemma last_app_nonempty (A : Type) (a b : list A) d d' :
  b <> [] -> last (a ++ b) d = last b d'.
Proof.
  intros Hb. induction a as [|x a IH].
  - simpl. destruct b as [|y b]; [contradiction|].
    clear. revert y. induction b as [|z b IH]; intros y; [reflexivity|].
    simpl in *. apply IH.
  - cbn [app]. destruct (a ++ b) eqn:E.
    + apply app_eq_nil in E as [_ ->]. contradiction.
    + rewrite <- E in *. simpl. rewrite E. rewrite <- E. exact IH.
Qed.

(** Title case by positions is what the loop of [do_title] computes. *)
Lemma upper_eq c : (if Title.is_lower c then (c - 32)%N else c) = upper c.
Proof. reflexivity. Qed.

Lemma lower_eq c : (if Title.is_upper c then (c + 32)%N else c) = lower c.
Proof. reflexivity. Qed.

Lemma is_cased_eq U c : Title.is_cased U c = cased U c.
Proof. reflexivity. Qed.

Lemma do_title_positions U (s : str) : forall (pre whole : str) prev,
  whole = pre ++ s ->
  prev = match length pre with
         | 0 => false
         | S j => cased U (nth j whole 0%N)
         end ->
  Title.do_title U whole (length pre) prev s
  = flat_map (title_at U whole) (seq (length pre) (length s)).
Proof.
  induction s as [|c s IH]; intros pre whole prev Hw Hp; [reflexivity|].
  cbn [Title.do_title length seq flat_map].
  assert (Hc : nth (length pre) whole 0%N = c).
  { subst whole. now rewrite nth_middle. }
  f_equal.
  - unfold title_at. cbv beta zeta. rewrite Hc, <- Hp.
    unfold Title.to_lower, Title.to_title, Title.is_ascii.
    rewrite upper_eq, lower_eq.
    destruct (c <=? 127)%N, prev; reflexivity.
  - replace (S (length pre)) with (length (pre ++ [c]))
      by (rewrite length_app; simpl; lia).
    apply IH.
    + subst whole. now rewrite <- app_assoc.
    + rewrite length_app. cbn [length]. rewrite Nat.add_1_r.
      now rewrite Hc, is_cased_eq.
Qed.

Lemma title_title_case U s : Title.title U s = title_case U s.
Proof.
  unfold Title.title, title_case.
  now apply (do_title_positions U s [] s false).
Qed.

Lemma label_eq w part :
  label w part = Title.title (cases w) (replace (chr "_") (lit " ") part).
Proof. unfold label. now rewrite title_title_case. Qed.

Section BreadcrumbFacts.

Variable w : World.

(** The loop, turn by turn. *)
Lemma fold_breadcrumb_step dirs : forall cur acc,
  fold_left (breadcrumb_step w) dirs (cur, acc)
  = (cur ++ prefix_of dirs,
     acc ++ List.map (fun k => part_link (cur ++ prefix_of (firstn (S k) dirs))
                              (label w (nth k dirs [])))
              (seq 0 (length dirs))).
Proof.
  induction dirs as [|d dirs IH]; intros cur acc.
  - simpl. now rewrite !app_nil_r.
  - cbn [fold_left breadcrumb_step]. rewrite IH. f_equal.
    + unfold prefix_of. cbn [flat_map]. now rewrite <- !app_assoc.
    + cbn [length seq List.map]. rewrite <- seq_shift, map_map.
      rewrite <- app_assoc. cbn [app]. f_equal. f_equal.
      * rewrite label_eq. unfold prefix_of. cbn [firstn flat_map nth].
        now rewrite app_nil_r.
      * apply map_ext. intros k.
        change (firstn (S (S k)) (d :: dirs)) with (d :: firstn (S k) dirs).
        unfold prefix_of. cbn [flat_map nth]. now rewrite <- !app_assoc.
Qed.

End BreadcrumbFacts.

Section TitleFacts.

Variable U : Title.CaseTables.

Lemma letter_bounds c :
  is_letter c = true -> (65 <= c <= 90 \/ 97 <= c <= 122)%N.
Proof.
  unfold is_letter.
  rewrite orb_true_iff, !andb_true_iff, !N.leb_le. auto.
Qed.

Lemma letter_ascii c : is_letter c = true -> Title.is_ascii c = true.
Proof.
  intros H. apply letter_bounds in H. unfold Title.is_ascii.
  apply N.leb_le. unfold char in *. lia.
Qed.

Lemma letter_not_underscore c : is_letter c = true -> c <> chr "_".
Proof.
  intros H. apply letter_bounds in H. change (chr "_") with 95%N.
  unfold char in *. lia.
Qed.

Lemma do_title_letters whole word : forall i rest,
  forallb is_letter word = true ->
  Title.do_title U whole i true (word ++ rest)
  = List.map lower word ++ Title.do_title U whole (i + length word) true rest.
Proof.
  induction word as [|c word IH]; intros i rest H.
  - simpl. now rewrite Nat.add_0_r.
  - cbn [forallb] in H. apply andb_true_iff in H as [Hc Hw].
    cbn [app Title.do_title List.map length].
    rewrite is_cased_eq. unfold Title.to_lower, cased.
    rewrite (letter_ascii _ Hc), lower_eq.
    pose proof (letter_ascii _ Hc) as Ha. unfold Title.is_ascii in Ha.
    rewrite Ha, Hc. cbn [app].
    rewrite IH by assumption. now rewrite Nat.add_succ_r.
Qed.

Lemma do_title_word whole word : forall i rest,
  word <> [] ->
  forallb is_letter word = true ->
  Title.do_title U whole i false (word ++ rest)
  = capitalize word ++ Title.do_title U whole (i + length word) true rest.
Proof.
  intros i rest Hne H. destruct word as [|c word]; [contradiction|].
  cbn [forallb] in H. apply andb_true_iff in H as [Hc Hw].
  cbn [app Title.do_title capitalize length].
  rewrite is_cased_eq. unfold Title.to_title, cased.
  rewrite (letter_ascii _ Hc), upper_eq.
  pose proof (letter_ascii _ Hc) as Ha. unfold Title.is_ascii in Ha.
  rewrite Ha, Hc. cbn [app].
  rewrite do_title_letters by assumption. now rewrite Nat.add_succ_r.
Qed.

Lemma do_title_space whole i b rest :
  Title.do_title U whole i b (chr " " :: rest)
  = chr " " :: Title.do_title U whole (S i) false rest.
Proof. destruct b; reflexivity. Qed.

Lemma do_title_words whole words : forall i,
  Forall is_word words ->
  Title.do_title U whole i false (join (lit " ") words)
  = join (lit " ") (List.map capitalize words).
Proof.
  induction words as [|wd words IH]; intros i H; [reflexivity|].
  pose proof (Forall_inv H) as [Hne Hl].
  pose proof (Forall_inv_tail H) as Ht.
  destruct words as [|v words].
  - cbn [join List.map]. rewrite <- (app_nil_r wd) at 1.
    rewrite do_title_word by assumption. simpl. apply app_nil_r.
  - cbn [List.map]. rewrite !join_cons2.
    rewrite do_title_word by assumption.
    change (lit " ") with [chr " "]. cbn [app].
    rewrite do_title_space. f_equal. f_equal.
    apply (IH _ Ht).
Qed.

Lemma replace_plain old new s :
  no_char old s -> replace old new s = s.
Proof.
  induction 1 as [|c s Hc Hs IH]; [reflexivity|].
  unfold replace in *. cbn [flat_map]. apply char_eqb_neq in Hc.
  now rewrite Hc, IH.
Qed.

Lemma replace_join_underscore words :
  Forall is_word words ->
  replace (chr "_") (lit " ") (join (lit "_") words) = join (lit " ") words.
Proof.
  induction 1 as [|wd words [Hne Hl] Hw IH]; [reflexivity|].
  assert (Hwd : replace (chr "_") (lit " ") wd = wd).
  { apply replace_plain. apply Forall_forall. intros c Hc.
    apply letter_not_underscore.
    rewrite forallb_forall in Hl. now apply Hl. }
  destruct words as [|v words]; [exact Hwd|].
  rewrite !join_cons2. unfold replace in *.
  rewrite !flat_map_app, Hwd, IH. reflexivity.
Qed.

End TitleFacts.

Section BreadcrumbTheorem.

Variable w : World.

Lemma generate_breadcrumb_parts path parts :
  split (chr "/") (strip_by (char_eqb (chr "/")) path) = parts ->
  generate_breadcrumb w path
  = match removelast parts with
    | [] => []
    | dirs => breadcrumb_open ++ join (lit " > ") (trail w dirs) ++ lit "</div>"
    end.
Proof.
  intros E. unfold generate_breadcrumb. rewrite E.
  rewrite fold_breadcrumb_step. cbn [app].
  destruct (removelast parts) as [|d dirs]; [reflexivity|].
  reflexivity.
Qed.

(** C3, amended. The path is cut at its slashes and the file name dropped.
    With no directory left the result is the empty string. Otherwise it is
    the container with the Home link to [/] and then, in order, one link
    for each directory: to the prefix accumulated so far, under the
    directory's name with underscores as spaces and in title case, where a
    letter that follows a letter is put in lower case and any other letter
    in upper case. For a name made of words of letters that is each word
    capitalized. [architecture/index.md] gives Home and [Architecture]
    linking to [/architecture/]; [readme.md] gives the empty string. *)
Theorem generate_breadcrumb_spec :
  (forall dirs file,
      Forall (no_char (chr "/")) dirs ->
      no_char (chr "/") file ->
      file <> [] ->
      hd file dirs <> [] ->
      generate_breadcrumb w (join (lit "/") (dirs ++ [file]))
      = match dirs with
        | [] => []
        | _ => breadcrumb_open ++ join (lit " > ") (trail w dirs)
                 ++ lit "</div>"
        end)
  /\ (forall words,
         Forall is_word words ->
         label w (join (lit "_") words)
         = join (lit " ") (List.map capitalize words))
  /\ generate_breadcrumb w (lit "architecture/index.md")
     = lit "<div class=" ++ dquote :: lit "breadcrumb" ++ dquote
         :: lit "><a href=" ++ dquote :: lit "/" ++ dquote
         :: lit ">Home</a> > <a href=" ++ dquote :: lit "/architecture/"
         ++ dquote :: lit ">Architecture</a></div>"
  /\ generate_breadcrumb w (lit "readme.md") = [].
Proof.
  split; [|split; [|split]]; try reflexivity.
  - intros dirs file Hd Hf Hne Hhd.
    rewrite (generate_breadcrumb_parts _ (dirs ++ [file])).
    + rewrite removelast_last. now destruct dirs.
    + rewrite strip_by_id.
      * apply split_join; [now destruct dirs | ].
        apply Forall_app. split; [exact Hd | now constructor].
      * rewrite join_snoc.
        assert (Hlast : forall x, x <> [] -> no_char (chr "/") x ->
                  forall d, char_eqb (chr "/") (last x d) = false).
        { intros x Hx Hn d. apply char_eqb_neq. intros E.
          unfold no_char in Hn. rewrite Forall_forall in Hn.
          apply (Hn (last x d)); [|now symmetry].
          apply exists_last in Hx as (x' & l & ->).
          rewrite last_last. apply in_or_app. right. now left. }
        assert (Hfirst : forall x rest, x <> [] -> no_char (chr "/") x ->
                  match x ++ rest with
                  | [] => True
                  | c :: _ => char_eqb (chr "/") c = false
                  end).
        { intros [|c x] rest Hx Hn; [contradiction|]. cbn [app].
          apply char_eqb_neq. intros E. apply (Forall_inv Hn). now symmetry. }
        destruct (flat_map (fun d => d ++ lit "/") dirs ++ file) as [|c s] eqn:E;
          [exact I|].
        split.
        -- destruct dirs as [|d dirs].
           ++ simpl in E. specialize (Hfirst file [] Hne Hf).
              rewrite app_nil_r, E in Hfirst. exact Hfirst.
           ++ cbn [flat_map hd] in *. rewrite <- !app_assoc in E.
              specialize (Hfirst d (lit "/" ++ flat_map (fun d => d ++ lit "/") dirs ++ file)
                            Hhd (Forall_inv Hd)).
              rewrite E in Hfirst. exact Hfirst.
        -- rewrite <- E. rewrite (last_app_nonempty _ _ file c c) by assumption.
           now apply Hlast.
  - intros words Hw. rewrite label_eq. unfold Title.title.
    rewrite replace_join_underscore by assumption.
    now apply do_title_words.
Qed.

End BreadcrumbTheorem.

(** ** Unquoting and the normalized path *)

Import Unquote.

Lemma hexdig_not_percent a : is_hexdig a = true -> char_eqb a (chr "%") = false.
Proof.
  intros H. apply char_eqb_neq. intros ->. discriminate.
Qed.

Lemma utb_bits s :
  unquote_to_bytes s
  = hd [] (split (chr "%") s)
      ++ flat_map unquote_item (tl (split (chr "%") s)).
Proof.
  unfold unquote_to_bytes. destruct s as [|x s]; [reflexivity|].
  destruct (split (chr "%") (x :: s)) as [|b0 [|b1 items]] eqn:E.
  - now apply split_nonempty in E.
  - cbn [hd tl flat_map]. rewrite app_nil_r.
    pose proof (hd_split (chr "%") (x :: s)) as Hb. rewrite E in Hb.
    cbn [hd] in Hb. subst b0.
    revert E. generalize (x :: s). clear. intros s.
    induction s as [|c s IH]; [reflexivity|]. cbn [split before].
    destruct (char_eqb c (chr "%")).
    + intros E. injection E as E. now apply split_nonempty in E.
    + destruct (split (chr "%") s) as [|v vs] eqn:Es;
        [now apply split_nonempty in Es|].
      intros E. injection E as E1 E2. subst vs. f_equal.
      apply IH. f_equal. exact E1.
  - reflexivity.
Qed.

Lemma utb_nil : unquote_to_bytes [] = [].
Proof. reflexivity. Qed.

Lemma utb_plain x s :
  x <> chr "%" -> unquote_to_bytes (x :: s) = x :: unquote_to_bytes s.
Proof.
  intros Hx. rewrite !utb_bits. cbn [split].
  apply char_eqb_neq in Hx. rewrite Hx.
  destruct (split (chr "%") s) as [|v vs] eqn:Es;
    [now apply split_nonempty in Es|]. reflexivity.
Qed.

Lemma utb_percent s :
  unquote_to_bytes (chr "%" :: s)
  = match s with
    | a :: b :: s2 =>
        if is_hexdig a && is_hexdig b
        then (16 * digit_val a + digit_val b)%N :: unquote_to_bytes s2
        else chr "%" :: unquote_to_bytes s
    | _ => chr "%" :: unquote_to_bytes s
    end.
Proof.
  rewrite (utb_bits (chr "%" :: s)). cbn [split].
  rewrite char_eqb_refl. cbn [hd tl app].
  destruct (split (chr "%") s) as [|v vs] eqn:Es;
    [now apply split_nonempty in Es|].
  cbn [flat_map].
  assert (Hs : unquote_to_bytes s = v ++ flat_map unquote_item vs)
    by (now rewrite utb_bits, Es).
  assert (Hdef : unquote_item v = chr "%" :: v ->
                 unquote_item v ++ flat_map unquote_item vs
                 = chr "%" :: unquote_to_bytes s)
    by (intros ->; now rewrite Hs).
  destruct s as [|a [|b s2]].
  - injection Es as <- <-. reflexivity.
  - apply Hdef. cbn [split] in Es.
    destruct (char_eqb a (chr "%")); injection Es as <- <-; reflexivity.
  - destruct (is_hexdig a && is_hexdig b) eqn:Eh.
    + apply andb_true_iff in Eh as [Ha Hb].
      cbn [split] in Es.
      rewrite (hexdig_not_percent _ Ha), (hexdig_not_percent _ Hb) in Es.
      destruct (split (chr "%") s2) as [|u us] eqn:Es2;
        [now apply split_nonempty in Es2|].
      injection Es as <- <-. cbn [unquote_item]. rewrite Ha, Hb. cbn [andb app].
      now rewrite utb_bits, Es2.
    + apply Hdef. cbn [split] in Es.
      destruct (char_eqb a (chr "%")) eqn:Ea.
      { injection Es as <- <-. reflexivity. }
      destruct (char_eqb b (chr "%")) eqn:Eb.
      { injection Es as <- <-. reflexivity. }
      destruct (split (chr "%") s2) as [|u us] eqn:Es2;
        [now apply split_nonempty in Es2|].
      injection Es as <- <-. cbn [unquote_item]. now rewrite Eh.
Qed.

(** Unquoting works on each side of a character that is neither the
    percent sign nor a hex digit. *)
Lemma utb_app c r2 : forall n r1,
  length r1 <= n ->
  c <> chr "%" -> is_hexdig c = false ->
  unquote_to_bytes (r1 ++ c :: r2)
  = unquote_to_bytes r1 ++ c :: unquote_to_bytes r2.
Proof.
  induction n as [|n IH]; intros r1 Hlen Hc Hh.
  - destruct r1; [|simpl in Hlen; lia]. cbn [app]. now rewrite utb_plain.
  - destruct r1 as [|x r1]; [cbn [app]; now rewrite utb_plain|].
    simpl in Hlen. cbn [app].
    destruct (char_eqb x (chr "%")) eqn:Ex.
    + apply char_eqb_eq in Ex. subst x. rewrite !utb_percent.
      destruct r1 as [|a [|b s2]]; cbn [app].
      * destruct r2 as [|b r2]; [|rewrite Hh; cbn [andb]];
          now rewrite utb_plain.
      * rewrite Hh, andb_false_r.
        change (a :: c :: r2) with ([a] ++ c :: r2).
        now rewrite (IH [a]) by (simpl in *; auto; lia).
      * simpl in Hlen. destruct (is_hexdig a && is_hexdig b).
        -- now rewrite (IH s2) by (simpl in *; auto; lia).
        -- change (a :: b :: s2 ++ c :: r2) with ((a :: b :: s2) ++ c :: r2).
           now rewrite (IH (a :: b :: s2)) by (simpl in *; auto; lia).
    + apply char_eqb_neq in Ex. rewrite !utb_plain by assumption.
      now rewrite IH by (simpl in *; auto; lia).
Qed.

Lemma contains_app c a b : contains c (a ++ b) = contains c a || contains c b.
Proof. unfold contains. apply existsb_app. Qed.

Lemma contains_false c s : contains c s = false <-> no_char c s.
Proof.
  unfold contains, no_char. induction s as [|x s IH]; simpl.
  - split; [constructor | reflexivity].
  - rewrite orb_false_iff, IH. split.
    + intros [E H]. constructor; [|exact H].
      apply char_eqb_neq in E. congruence.
    + intros H. split; [|exact (Forall_inv_tail H)].
      apply char_eqb_neq. pose proof (Forall_inv H). congruence.
Qed.

Lemma utb_no_percent s : no_char (chr "%") s -> unquote_to_bytes s = s.
Proof.
  induction 1 as [|x s Hx Hs IH]; [reflexivity|].
  now rewrite utb_plain, IH.
Qed.

Lemma before_none c s : contains c s = false -> before c s = s.
Proof.
  induction s as [|x s IH]; [reflexivity|]. unfold contains in *. simpl.
  rewrite orb_false_iff. intros [E H].
  assert (E' : char_eqb x c = false).
  { apply char_eqb_neq. apply char_eqb_neq in E. congruence. }
  now rewrite E', IH.
Qed.

Lemma if_contains_split c s :
  (if contains c s then hd [] (split c s) else s) = before c s.
Proof.
  destruct (contains c s) eqn:E; [apply hd_split|].
  symmetry. now apply before_none.
Qed.

Lemma before_app_sep c a b : before c (a ++ c :: b) = before c a.
Proof.
  induction a as [|x a IH]; simpl.
  - now rewrite char_eqb_refl.
  - destruct (char_eqb x c); [reflexivity|]. now rewrite IH.
Qed.

Lemma before_comm c d s : before c (before d s) = before d (before c s).
Proof.
  induction s as [|x s IH]; [reflexivity|]. simpl.
  destruct (char_eqb x d) eqn:Ed, (char_eqb x c) eqn:Ec; simpl;
    rewrite ?Ed, ?Ec; try reflexivity.
  now rewrite IH.
Qed.

(** *** Unquoting is percent-decoding *)















Section UnquoteFacts.

Variable decode : list N -> str.
Hypothesis decode_nil : decode [] = [].
Hypothesis decode_ascii : forall b1 c b2,
  (c <= 127)%N -> decode (b1 ++ c :: b2) = decode b1 ++ c :: decode b2.

Lemma flush_eq run : flush decode run = decode (unquote_to_bytes run).
Proof. destruct run; [now rewrite utb_nil, decode_nil | reflexivity]. Qed.

Lemma decode_ascii_all l : Forall (fun c => (c <= 127)%N) l -> decode l = l.
Proof.
  induction 1 as [|c l Hc Hl IH]; [exact decode_nil|].
  change (c :: l) with ([] ++ c :: l) at 1.
  rewrite (decode_ascii [] c l Hc), decode_nil, IH. reflexivity.
Qed.

Section Delimiter.

Variable c : char.
Hypothesis c_ascii : (c <= 127)%N.
Hypothesis c_not_percent : c <> chr "%".
Hypothesis c_not_hex : is_hexdig c = false.

Lemma flush_app r1 r2 :
  flush decode (r1 ++ c :: r2) = flush decode r1 ++ c :: flush decode r2.
Proof.
  rewrite !flush_eq, (utb_app c r2 (length r1) r1) by auto.
  now apply decode_ascii.
Qed.

Lemma scan_mid q : forall r1 r2,
  unquote_scan decode (r1 ++ c :: r2) q
  = flush decode r1 ++ c :: unquote_scan decode r2 q.
Proof.
  induction q as [|x q IH]; intros r1 r2; cbn [unquote_scan].
  - apply flush_app.
  - destruct (x <=? 127)%N.
    + rewrite <- app_assoc. cbn [app]. apply IH.
    + rewrite flush_app, <- app_assoc. reflexivity.
Qed.

Lemma scan_app p : forall run q,
  unquote_scan decode run (p ++ c :: q)
  = unquote_scan decode run p ++ c :: unquote_scan decode [] q.
Proof.
  induction p as [|x p IH]; intros run q; cbn [app unquote_scan].
  - rewrite (proj2 (N.leb_le c 127) c_ascii).
    apply (scan_mid q run []).
  - destruct (x <=? 127)%N.
    + apply IH.
    + rewrite IH, <- app_assoc. reflexivity.
Qed.

End Delimiter.

Lemma scan_plain s : forall run,
  no_char (chr "%") s -> no_char (chr "%") run ->
  Forall (fun c => (c <= 127)%N) run ->
  unquote_scan decode run s = run ++ s.
Proof.
  induction s as [|x s IH]; intros run Hs Hr Ha; cbn [unquote_scan].
  - rewrite flush_eq, utb_no_percent, decode_ascii_all by assumption.
    now rewrite app_nil_r.
  - pose proof (Forall_inv Hs) as Hx. pose proof (Forall_inv_tail Hs) as Hs'.
    destruct (x <=? 127)%N eqn:Ex.
    + rewrite IH; [now rewrite <- app_assoc | assumption | |].
      * apply Forall_app. split; [assumption | now constructor].
      * apply Forall_app. split; [assumption|]. constructor; [|constructor].
        now apply N.leb_le.
    + rewrite flush_eq, utb_no_percent, decode_ascii_all by assumption.
      f_equal. f_equal. apply (IH []); [assumption | constructor | constructor].
Qed.

Lemma unquote_scan_eq s : unquote decode s = unquote_scan decode [] s.
Proof.
  unfold unquote. destruct (contains (chr "%") s) eqn:E; [reflexivity|].
  cbn [negb]. symmetry. apply contains_false in E.
  now apply (scan_plain s []); [|constructor|constructor].
Qed.



(** Unquoting works on each side of an ASCII character that is neither
    the percent sign nor a hex digit. *)
Lemma unquote_app c p q :
  (c <= 127)%N -> c <> chr "%" -> is_hexdig c = false ->
  unquote decode (p ++ c :: q) = unquote decode p ++ c :: unquote decode q.
Proof.
  intros. rewrite !unquote_scan_eq. now apply scan_app.
Qed.

End UnquoteFacts.

Section NormalizeTheorem.

Variable w : World.

Lemma normalize_eq raw :
  normalize w raw
  = root_to_index
      (before (chr "#") (before (chr "?") (unquote (utf8_decode w) raw))).
Proof.
  unfold normalize, root_to_index. now rewrite !if_contains_split.
Qed.


End NormalizeTheorem.

(** ** The request handler *)

Import Notions.

Lemma latin1_ok_iff text : latin1_ok text = true <-> latin1 text.
Proof.
  unfold latin1_ok, latin1. rewrite forallb_forall, Forall_forall.
  split; intros H c Hc; apply N.leb_le, H, Hc.
Qed.


Section HandlerFacts.

Variable w : World.

Lemma serve_markdown_eq path :
  serve_markdown w path
  = if negb (MARKDOWN_AVAILABLE w) then
      bind (send_error w 500 unavailable_message) (fun _ => ret true)
    else
      bind (call (FsExists (file_path_of w path))
                 (fs_exists w (file_path_of w path)))
        (fun present =>
           if negb present then ret false
           else try_except (render w (file_path_of w path) (relative path))
                  (except_clause w)).
Proof. reflexivity. Qed.

Lemma send_unavailable :
  send_error w 500 unavailable_message
  = ([SendError 500 unavailable_message], inr tt).
Proof.
  unfold send_error.
  replace (latin1_ok unavailable_message) with true by reflexivity.
  now rewrite orb_true_r.
Qed.

Lemma serve_markdown_unavailable path :
  MARKDOWN_AVAILABLE w = false ->
  serve_markdown w path = ([SendError 500 unavailable_message], inr true).
Proof.
  intros H. rewrite serve_markdown_eq, H. cbn [negb].
  now rewrite send_unavailable.
Qed.

Lemma serve_markdown_missing path :
  MARKDOWN_AVAILABLE w = true ->
  fs_exists w (file_path_of w path) = inr false ->
  serve_markdown w path = ([FsExists (file_path_of w path)], inr false).
Proof.
  intros Ha He. rewrite serve_markdown_eq, Ha. cbn [negb]. unfold call.
  rewrite He. reflexivity.
Qed.

Lemma serve_markdown_raises path e :
  MARKDOWN_AVAILABLE w = true ->
  fs_exists w (file_path_of w path) = inl e ->
  serve_markdown w path = ([FsExists (file_path_of w path)], inl e).
Proof.
  intros Ha He. rewrite serve_markdown_eq, Ha. cbn [negb]. unfold call.
  rewrite He. reflexivity.
Qed.

(** What the except clause does: the 500 response when its text can go
    into the status line, and the exception of the encoder otherwise. *)
Lemma except_clause_cases e :
  except_clause w e = ([SendError 500 (render_error e)], inr true)
  \/ (latin1_ok (render_error e) = false
      /\ except_clause w e
         = ([], inl (encode_error w (lit "latin-1") (render_error e)))).
Proof.
  unfold except_clause, send_error. fold (render_error e).
  destruct (http09 w); [now left|]. cbn [orb].
  destruct (latin1_ok (render_error e)); [now left | now right].
Qed.


(** The run of [serve_markdown] when the file is there, stage by stage. *)
Lemma serve_markdown_present path :
  MARKDOWN_AVAILABLE w = true ->
  fs_exists w (file_path_of w path) = inr true ->
  serve_markdown w path
  = match fs_read w (file_path_of w path) with
    | inl e =>
        after [FsExists (file_path_of w path); FsRead (file_path_of w path)]
          (except_clause w e)
    | inr content =>
        match md_convert w content with
        | inl e =>
            after [FsExists (file_path_of w path);
                   FsRead (file_path_of w path); MdConvert content]
              (except_clause w e)
        | inr html_content =>
            match process_mermaid_blocks (entities w) html_content with
            | inl e =>
                after [FsExists (file_path_of w path);
                       FsRead (file_path_of w path); MdConvert content]
                  (except_clause w e)
            | inr diagrams =>
                if utf8_ok (page w (relative path) content diagrams)
                then
                  ([FsExists (file_path_of w path);
                    FsRead (file_path_of w path); MdConvert content]
                     ++ ok_response
                          (page w (relative path) content diagrams),
                   inr true)
                else
                  after [FsExists (file_path_of w path);
                         FsRead (file_path_of w path); MdConvert content;
                         SendResponse 200;
                         SendHeader (lit "Content-type")
                                    (lit "text/html; charset=utf-8");
                         EndHeaders]
                    (except_clause w
                       (encode_error w (lit "utf-8")
                          (page w (relative path) content diagrams)))
            end
        end
    end.
Proof.
  intros Ha He. rewrite serve_markdown_eq, Ha. cbn [negb]. unfold call at 1.
  rewrite He. cbn [bind negb]. unfold render, call, lift, after.
  destruct (fs_read w (file_path_of w path)) as [e|content].
  { cbn [bind try_except]. now destruct (except_clause w e). }
  cbn [bind].
  destruct (md_convert w content) as [e|html_content].
  { cbn [bind try_except app]. now destruct (except_clause w e). }
  cbn [bind].
  destruct (process_mermaid_blocks (entities w) html_content) as [e|diagrams].
  { cbn [bind try_except app]. now destruct (except_clause w e). }
  cbn [bind emit]. unfold wfile_write.
  change (format (HTML_TEMPLATE w) (page_title content)
            (generate_breadcrumb w (relative path) ++ lit "<div class="
               ++ dquote :: lit "content" ++ dquote :: lit ">" ++ diagrams
               ++ lit "</div>"))
    with (page w (relative path) content diagrams).
  destruct (utf8_ok (page w (relative path) content diagrams)).
  - reflexivity.
  - cbn [raise bind try_except app].
    now destruct (except_clause w _).
Qed.

(** With the renderer missing, or the file there, [serve_markdown] does
    not answer [False]. *)
Lemma serve_markdown_answers path :
  MARKDOWN_AVAILABLE w = false
  \/ fs_exists w (file_path_of w path) = inr true ->
  result (serve_markdown w path) <> inr false.
Proof.
  intros H. destruct (MARKDOWN_AVAILABLE w) eqn:Ea.
  - destruct H as [H|He]; [discriminate|].
    rewrite serve_markdown_present by assumption. unfold after.
    destruct (fs_read w (file_path_of w path)) as [e|content].
    { destruct (except_clause_cases e) as [-> | [_ ->]]; discriminate. }
    destruct (md_convert w content) as [e|html_content].
    { destruct (except_clause_cases e) as [-> | [_ ->]]; discriminate. }
    destruct (process_mermaid_blocks (entities w) html_content)
      as [e|diagrams].
    { destruct (except_clause_cases e) as [-> | [_ ->]]; discriminate. }
    destruct (utf8_ok _); [discriminate|].
    destruct (except_clause_cases (encode_error w (lit "utf-8")
               (page w (relative path) content diagrams)))
      as [-> | [_ ->]]; discriminate.
  - rewrite serve_markdown_unavailable by assumption. discriminate.
Qed.

Lemma super_do_GET_eq raw :
  super_do_GET w raw
  = (SuperGET raw :: List.map Static (fst (base_do_GET w raw)),
     snd (base_do_GET w raw)).
Proof.
  unfold super_do_GET, emit, bind. reflexivity.
Qed.

Lemma do_GET_not_html raw :
  endswith (lit ".html") (normalize w raw) = false ->
  do_GET w raw = super_do_GET w raw.
Proof. intros H. unfold do_GET. now rewrite H. Qed.

Lemma do_GET_html raw :
  endswith (lit ".html") (normalize w raw) = true ->
  do_GET w raw
  = bind (serve_markdown w (md_path_of (normalize w raw)))
         (fun served => if served then ret tt else super_do_GET w raw).
Proof. intros H. unfold do_GET. now rewrite H. Qed.

(** When [serve_markdown] does not answer [False], [do_GET] is what it
    does. *)
Lemma do_GET_served raw :
  endswith (lit ".html") (normalize w raw) = true ->
  result (serve_markdown w (md_path_of (normalize w raw))) <> inr false ->
  trace (do_GET w raw) = trace (serve_markdown w (md_path_of (normalize w raw)))
  /\ result (do_GET w raw)
     = match result (serve_markdown w (md_path_of (normalize w raw))) with
       | inl e => inl e
       | inr _ => inr tt
       end.
Proof.
  intros Hh Hr. rewrite do_GET_html by assumption.
  destruct (serve_markdown w (md_path_of (normalize w raw))) as [t [e|[|]]];
    cbn in *; [auto | | congruence].
  now rewrite app_nil_r.
Qed.



End HandlerFacts.

(** Facts of a trace that is written out. *)
Ltac trace_facts :=
  cbn; repeat split; try intros ?; try lia; try discriminate;
  try solve [intuition discriminate].

Section HandlerTheorems.

Variable w : World.



(** C8. Without the renderer every call of [serve_markdown], so every
    request whose path ends in [.html], is answered with the fixed 500
    message and touches no file; any other request is the base handler's. *)
Theorem renderer_unavailable :
  MARKDOWN_AVAILABLE w = false ->
  (forall path,
      serve_markdown w path = ([SendError 500 unavailable_message], inr true))
  /\ (forall raw,
         endswith (lit ".html") (normalize w raw) = true ->
         do_GET w raw = ([SendError 500 unavailable_message], inr tt))
  /\ (forall raw,
         endswith (lit ".html") (normalize w raw) = false ->
         do_GET w raw = super_do_GET w raw).
Proof.
  intros Ha. split; [|split].
  - intros path. now apply serve_markdown_unavailable.
  - intros raw Hh. rewrite do_GET_html by assumption.
    now rewrite serve_markdown_unavailable.
  - intros raw Hh. now apply do_GET_not_html.
Qed.


End HandlerTheorems.

(** C9. Whether the file lies inside the documentation root plays no part
    in [serve_markdown]: with the renderer available, a file that exists is
    read. There is a request whose path ends in [.html] and has a [..]
    segment, for which the file read and rendered lies outside the root. *)
Theorem traversal_not_guarded :
  (forall w path,
      MARKDOWN_AVAILABLE w = true ->
      fs_exists w (file_path_of w path) = inr true ->
      In (FsRead (file_path_of w path)) (trace (serve_markdown w path)))
  /\ exists w raw content html_content diagrams,
       endswith (lit ".html") (normalize w raw) = true
       /\ In (lit "..") (split (chr "/") (normalize w raw))
       /\ inside (docs_root w) (md_candidate w (normalize w raw)) = false
       /\ fs_exists w (md_candidate w (normalize w raw)) = inr true
       /\ fs_read w (md_candidate w (normalize w raw)) = inr content
       /\ md_convert w content = inr html_content
       /\ process_mermaid_blocks (entities w) html_content = inr diagrams
       /\ do_GET w raw
          = ([FsExists (md_candidate w (normalize w raw));
              FsRead (md_candidate w (normalize w raw));
              MdConvert content]
               ++ ok_response
                    (page w (md_relative (normalize w raw)) content diagrams),
             inr tt).
Proof.
  split.
  - intros w path Ha He. rewrite serve_markdown_present by assumption.
    unfold after.
    destruct (fs_read w (file_path_of w path)) as [e|content];
      [simpl; auto|].
    destruct (md_convert w content); [simpl; auto|].
    destruct (process_mermaid_blocks _ _); [simpl; auto|].
    destruct (utf8_ok _); simpl; auto.
  - exists (sample_world true secret_disk []), (lit "/../secret.html"),
      (lit "# Keys"), (lit "<p># Keys</p>"), (lit "<p># Keys</p>").
    split; [reflexivity|]. split; [vm_compute; auto|].
    repeat (split; [reflexivity|]). reflexivity.
Qed.

(** ** The theorems at sample worlds *)

(** The label of [2nd_edition] is [2Nd Edition], and not the name with
    each word capitalized. *)
Lemma capitalized_breadcrumb_counterexample :
  label (sample_world true [] []) (lit "2nd_edition") = lit "2Nd Edition"
  /\ capitalized_label (lit "2nd_edition") = lit "2nd Edition"
  /\ generate_breadcrumb (sample_world true [] []) (lit "2nd_edition/index.md")
     = lit "<div class=" ++ dquote :: lit "breadcrumb" ++ dquote
         :: lit "><a href=" ++ dquote :: lit "/" ++ dquote
         :: lit ">Home</a> > <a href=" ++ dquote :: lit "/2nd_edition/"
         ++ dquote :: lit ">2Nd Edition</a></div>"
  /\ ~ capitalized_breadcrumb_claim.
Proof.
  split; [reflexivity|]. split; [reflexivity|]. split; [reflexivity|].
  intros H.
  specialize (H (sample_world true [] []) [lit "2nd_edition"] (lit "index.md")).
  vm_compute in H.
  assert (E : Forall (fun x : N => x <> 47%N) [105; 110; 100; 101; 120; 46; 109; 100]%N)
    by (repeat constructor; discriminate).
  specialize (H ltac:(repeat constructor; discriminate) E
                ltac:(discriminate) ltac:(discriminate)).
  discriminate H.
Qed.







Lemma renderer_unavailable_witness :
  do_GET (sample_world false secret_disk [(lit "/style.css", [104; 49]%N)])
    (lit "/index.html?v=2")
  = ([SendError 500 unavailable_message], inr tt)
  /\ do_GET (sample_world false secret_disk [(lit "/style.css", [104; 49]%N)])
       (lit "/style.css")
     = ([SuperGET (lit "/style.css"); Static (StaticResponse 200);
         Static (StaticBody [104; 49]%N)],
        inr tt).
Proof.
  pose proof (renderer_unavailable
                (sample_world false secret_disk [(lit "/style.css", [104; 49]%N)])
                eq_refl) as (_ & Hhtml & Hother).
  split.
  - apply Hhtml. reflexivity.
  - rewrite Hother; reflexivity.
Defined.

Lemma traversal_not_guarded_witness :
  In (FsRead (file_path_of (sample_world true secret_disk []) (lit "/../secret.md")))
     (trace (serve_markdown (sample_world true secret_disk []) (lit "/../secret.md")))
  /\ inside (docs_root (sample_world true secret_disk []))
            (file_path_of (sample_world true secret_disk []) (lit "/../secret.md"))
     = false.
Proof.
  split; [|reflexivity].
  apply (proj1 traversal_not_guarded); reflexivity.
Defined.


Lemma generate_breadcrumb_spec_witness :
  generate_breadcrumb (sample_world true [] [])
    (join (lit "/") ([lit "guides"; lit "tiger_style"] ++ [lit "intro.md"]))
  = breadcrumb_open
      ++ join (lit " > ")
           (trail (sample_world true [] []) [lit "guides"; lit "tiger_style"])
      ++ lit "</div>"
  /\ label (sample_world true [] []) (join (lit "_") [lit "tiger"; lit "STYLE"])
     = join (lit " ") (List.map capitalize [lit "tiger"; lit "STYLE"]).
Proof.
  split.
  - apply (proj1 (generate_breadcrumb_spec (sample_world true [] []))
             [lit "guides"; lit "tiger_style"] (lit "intro.md")).
    + repeat constructor; discriminate.
    + repeat constructor; discriminate.
    + discriminate.
    + discriminate.
  - apply (proj1 (proj2 (generate_breadcrumb_spec (sample_world true [] [])))).
    repeat constructor; discriminate.
Defined.


(** * Further properties *)

(** ** More on the diagram block transformer *)

Lemma span_here_occurs s :
  span_here s ->
  exists attrs body rest,
    no_char (chr ">") attrs /\
    s = pre_open ++ attrs ++ code_open ++ body ++ code_close ++ rest.
Proof. intros (attrs & body & rest & H & E). eauto. Qed.

Lemma span_at_split i s :
  span_at i s ->
  exists attrs body rest,
    s = firstn i s ++ pre_open ++ attrs ++ code_open ++ body
          ++ code_close ++ rest.
Proof.
  intros H. apply span_here_occurs in H as (attrs & body & rest & _ & E).
  exists attrs, body, rest. rewrite <- E. symmetry. apply firstn_skipn.
Qed.

(** [<pre] is not a prefix of a short text that runs into nothing or into
    another [<pre]. *)
Lemma pre_open_prefix u after y :
  u <> [] ->
  after = [] \/ (exists z, after = pre_open ++ z) ->
  u ++ after = pre_open ++ y ->
  exists u', u = pre_open ++ u'.
Proof.
  intros Hu Ha E. unfold pre_open in *.
  change (lit "<pre") with [60; 112; 114; 101]%N in *.
  destruct u as [|c1 [|c2 [|c3 [|c4 u']]]]; [contradiction | | | |].
  - destruct Ha as [-> | (z & ->)]; cbn [app] in E; discriminate.
  - destruct Ha as [-> | (z & ->)]; cbn [app] in E; discriminate.
  - destruct Ha as [-> | (z & ->)]; cbn [app] in E; discriminate.
  - cbn [app] in E. injection E as -> -> -> -> _. now exists u'.
Qed.

(** The code tag does not begin in a text and end in a [<pre] behind it. *)
Lemma code_open_straddle v l z r :
  v <> [] -> l <> [] ->
  code_open = v ++ l ->
  pre_open ++ z = l ++ r ->
  False.
Proof.
  intros Hv Hl Ec Ep. unfold code_open, pre_open, dquote in *.
  cbn in Ec, Ep.
  destruct v as [|c v]; [contradiction|]. cbn [app] in Ec.
  injection Ec as _ Ec.
  repeat (destruct v as [|? v];
          [cbn [app] in Ec; subst l; cbn [app] in Ep;
           first [discriminate | now elim Hl]
          |cbn [app] in Ec; try discriminate; injection Ec as _ Ec]).
Qed.

(** No span begins inside a text in which no block begins, whether the
    text is the end of the page or a span follows it. *)
Lemma no_span_in_text text after i :
  text_ok text ->
  after = [] \/ (exists z, after = pre_open ++ z) ->
  i < length text ->
  ~ span_at i (text ++ after).
Proof.
  intros [Hcode Hpre] Ha Hi Hs.
  apply span_here_occurs in Hs as (attrs & body & rest & Hattrs & E).
  rewrite skipn_app in E.
  replace (i - length text) with 0 in E by lia. cbn [skipn] in E.
  assert (Hu : skipn i text <> []).
  { intros Hn. apply (f_equal (@length _)) in Hn.
    rewrite length_skipn in Hn. simpl in Hn. lia. }
  destruct (pre_open_prefix _ _ _ Hu Ha E) as (u' & Eu).
  assert (Et : text = firstn i text ++ pre_open ++ u').
  { rewrite <- Eu. symmetry. apply firstn_skipn. }
  rewrite Eu, <- app_assoc in E. apply app_inv_head in E.
  apply app_eq_app in E as (l & [[E1 E2] | [E1 E2]]).
  - (* the attributes end inside the text *)
    symmetry in E2. apply app_eq_app in E2 as (m & [[E3 E4] | [E3 E4]]).
    + apply Hcode.
      exists (firstn i text ++ pre_open ++ attrs), m.
      rewrite Et at 1. rewrite E1, E3, <- !app_assoc. reflexivity.
    + destruct l as [|y l].
      * apply (Hpre _ _ Et). rewrite E1, app_nil_r. exact Hattrs.
      * destruct m as [|x m].
        -- rewrite app_nil_r in E3. apply Hcode.
           exists (firstn i text ++ pre_open ++ attrs), [].
           rewrite Et at 1. rewrite E1, <- E3, app_nil_r, <- !app_assoc.
           reflexivity.
        -- destruct Ha as [-> | (z & ->)]; [discriminate|].
           eapply (code_open_straddle (y :: l) (x :: m)); eauto; discriminate.
  - (* the attributes run to the end of the text *)
    apply (Hpre _ _ Et). unfold no_char in *. rewrite E1 in Hattrs.
    now apply Forall_app in Hattrs as [H _].
Qed.

Lemma occursb_complete w a b : occursb w (a ++ w ++ b) = true.
Proof.
  induction a as [|c a IH].
  - cbn [app]. destruct (w ++ b) eqn:E; unfold occursb; fold occursb;
      unfold startswith; rewrite <- E, strip_prefix_app; reflexivity.
  - cbn [app occursb]. rewrite IH. apply orb_true_r.
Qed.

Lemma not_occurs w s : occursb w s = false -> ~ occurs w s.
Proof.
  intros H (a & b & ->). now rewrite occursb_complete in H.
Qed.

Lemma dangling_pre_complete a b :
  no_char (chr ">") b -> dangling_pre (a ++ pre_open ++ b) = true.
Proof.
  intros Hb. induction a as [|c a IH].
  - cbn [app]. destruct (pre_open ++ b) eqn:E; unfold dangling_pre;
      fold dangling_pre; rewrite <- E, strip_prefix_app;
      apply contains_false in Hb; now rewrite Hb.
  - cbn [app dangling_pre]. rewrite IH. apply orb_true_r.
Qed.

Lemma text_ok_test text :
  occursb code_open text = false -> dangling_pre text = false -> text_ok text.
Proof.
  intros H1 H2. split; [now apply not_occurs|].
  intros a b -> Hb. now rewrite dangling_pre_complete in H2.
Qed.

Section TransformerMore.

Variable T : Tables.

(** X2. A fragment that lacks one of the three fixed parts of the pattern
    (the opening [<pre], the code tag of a diagram, the closing tags) is
    returned as it is: a block of another language, or a diagram block whose
    closing tags are missing, is not touched. *)
Theorem process_needs_all_parts (s : str) :
  ~ occurs pre_open s \/ ~ occurs code_open s \/ ~ occurs code_close s ->
  process_mermaid_blocks T s = inr s.
Proof.
  intros H. apply process_no_span. intros i Hi.
  apply span_at_split in Hi as (attrs & body & rest & E).
  destruct H as [H | [H | H]]; apply H.
  - exists (firstn i s), (attrs ++ code_open ++ body ++ code_close ++ rest).
    exact E.
  - exists (firstn i s ++ pre_open ++ attrs), (body ++ code_close ++ rest).
    rewrite E at 1. now rewrite <- !app_assoc.
  - exists (firstn i s ++ pre_open ++ attrs ++ code_open ++ body), rest.
    rewrite E at 1. now rewrite <- !app_assoc.
Qed.

(** A text in which no block begins is returned as it is. *)
Lemma process_text tail :
  text_ok tail -> process_mermaid_blocks T tail = inr tail.
Proof.
  intros Ht. apply process_no_span. intros i Hi.
  destruct (Nat.lt_ge_cases i (length tail)) as [Hlt | Hge].
  - apply (no_span_in_text tail [] i Ht (or_introl eq_refl) Hlt).
    now rewrite app_nil_r.
  - unfold span_at in Hi. rewrite skipn_all2 in Hi by assumption.
    apply span_here_dec in Hi. now apply Hi.
Qed.

(** X3. The attribute part of the pattern runs over anything but [>]: an
    unfinished [<pre] in front of a block is taken for the beginning of the
    block, and it and the text up to the block are lost in the result. *)
Theorem process_swallows_open_pre (junk attrs b rest : str) :
  no_char (chr ">") junk ->
  no_char (chr ">") attrs ->
  text_ok rest ->
  process_mermaid_blocks T
    (lit "<pre" ++ junk ++ mermaid_span attrs (escape b) ++ rest)
  = inr ((lit "<div class=" ++ dquote :: lit "mermaid" ++ dquote :: lit ">")
           ++ b ++ lit "</div>" ++ rest).
Proof.
  intros Hj Ha Hr.
  replace (lit "<pre" ++ junk ++ mermaid_span attrs (escape b) ++ rest)
    with (mermaid_span (junk ++ pre_open ++ attrs) (escape b) ++ rest)
    by (unfold mermaid_span, pre_open; now rewrite <- !app_assoc).
  rewrite process_encoded_span.
  - rewrite process_text by assumption. cbn [cat_res].
    rewrite mermaid_div_eq. now rewrite <- !app_assoc.
  - apply Forall_app. split; [exact Hj|].
    apply Forall_app. split; [|exact Ha].
    repeat constructor; discriminate.
Qed.

(** X1. A page with any number of diagram blocks, with texts between,
    before and behind them in which no block begins (blocks of other
    languages may stand there), comes out with every diagram block as its
    element [<div class="mermaid">...</div>], the decoded body inside, and
    every text as it was. *)
Theorem process_all_blocks (blocks : list (str * str * str)) (tail : str) :
  Forall block_ok blocks ->
  text_ok tail ->
  process_mermaid_blocks T (page_of blocks tail)
  = inr (rendered_of blocks tail).
Proof.
  intros Hb Ht. induction Hb as [|[[text attrs] body] rest [Htext Hattrs] Hrest IH].
  - cbn [page_of rendered_of]. now apply process_text.
  - cbn [page_of rendered_of]. rewrite process_prefix.
    + rewrite process_encoded_span by assumption.
      rewrite IH. cbn [cat_res]. rewrite mermaid_div_eq.
      now rewrite <- !app_assoc.
    + intros i Hi. apply no_span_in_text; [exact Htext | | exact Hi].
      right. eexists. unfold mermaid_span. rewrite <- !app_assoc. reflexivity.
Qed.

End TransformerMore.

(** ** A reference too long to decode *)

Section LongReference.

Variable T : Tables.

Lemma Forall_last (P : char -> Prop) l d : Forall P l -> P d -> P (last l d).
Proof.
  intros Hl Hd. induction Hl as [|x l Hx Hl IH]; [exact Hd|].
  destruct l; [exact Hx | exact IH].
Qed.

Lemma digit_cmatch c : is_digit c -> cmatch false digit_class c = true.
Proof.
  intros [H1 H2]. unfold cmatch, digit_class, in_ranges. cbn [existsb fst snd xorb].
  change (chr "0") with 48%N. change (chr "9") with 57%N.
  rewrite orb_false_r.
  apply andb_true_iff. split; now apply N.leb_le.
Qed.

Lemma match_at_charref_decimal digits rest :
  digits <> [] ->
  Forall is_digit digits ->
  match_at false charref (lit "&#" ++ digits ++ lit ";" ++ rest)
  = Some (length (lit "&#" ++ digits ++ lit ";"),
          [(1, lit "#" ++ digits ++ lit ";")]).
Proof.
  intros Hne Hd. destruct digits as [|d ds]; [contradiction|].
  pose proof (Forall_inv Hd) as Hd1. pose proof (Forall_inv_tail Hd) as Hds.
  unfold match_at, charref. cbn [bt].
  change (lit "&#" ++ (d :: ds) ++ lit ";" ++ rest)
    with (lit "&" ++ lit "#" ++ d :: ds ++ chr ";" :: rest).
  rewrite strip_prefix_app. rewrite strip_prefix_app.
  cbn [rep]. cbn [may_take andb]. rewrite (digit_cmatch d Hd1).
  cbn [pred option_map].
  erewrite rep_greedy_run.
  - reflexivity.
  - eapply Forall_impl; [|exact Hds]. apply digit_cmatch.
  - intros c s' E. injection E as <- _. reflexivity.
  - unfold semi_opt. cbn [bt rep may_take andb cmatch char_eqb].
    change (N.eqb (chr ";") (chr ";")) with true. cbv iota.
    cbn [pred option_map]. rewrite rep_exhausted.
    replace (lit "&" ++ lit "#" ++ d :: ds ++ chr ";" :: rest)
      with ((lit "&#" ++ (d :: ds) ++ lit ";") ++ rest)
      by (cbn [lit List.map list_ascii_of_string app];
          now rewrite <- !app_assoc).
    replace (lit "#" ++ d :: ds ++ chr ";" :: rest)
      with ((lit "#" ++ (d :: ds) ++ lit ";") ++ rest)
      by (cbn [lit List.map list_ascii_of_string app];
          now rewrite <- !app_assoc).
    now rewrite firstn_length_diff, length_diff.
Qed.

Lemma int_of_limit digits :
  640 < length digits ->
  0 < int_max_str_digits T ->
  int_max_str_digits T < length digits ->
  int_of T 10 digits = inl (int_limit_error T (length digits)).
Proof.
  intros H1 H2 H3. unfold int_of.
  change (10 =? 10)%N with true.
  apply Nat.ltb_lt in H1, H2, H3. now rewrite H1, H2, H3.
Qed.

Lemma replace_charref_decimal digits :
  digits <> [] ->
  Forall is_digit digits ->
  replace_charref T [(1, lit "#" ++ digits ++ lit ";")]
  = match int_of T 10 digits with
    | inl e => inl e
    | inr num => inr (numeric_charref T num)
    end.
Proof.
  intros Hne Hd. destruct digits as [|d ds]; [contradiction|].
  pose proof (Forall_inv Hd) as [Hd1 Hd2].
  unfold replace_charref. cbn [group Nat.eqb].
  change (lit "#" ++ (d :: ds) ++ lit ";") with (chr "#" :: (d :: ds) ++ lit ";").
  change (startswith (lit "#") (chr "#" :: (d :: ds) ++ lit ";")) with true.
  cbv iota. cbn [skipn].
  assert (Hx : startswith (lit "x") ((d :: ds) ++ lit ";") = false).
  { unfold startswith. cbn [lit List.map list_ascii_of_string app strip_prefix].
    destruct (char_eqb (N_of_ascii "x") d) eqn:E; [|reflexivity].
    apply N.eqb_eq in E. subst d. vm_compute in Hd2. now elim Hd2. }
  assert (HX : startswith (lit "X") ((d :: ds) ++ lit ";") = false).
  { unfold startswith. cbn [lit List.map list_ascii_of_string app strip_prefix].
    destruct (char_eqb (N_of_ascii "X") d) eqn:E; [|reflexivity].
    apply N.eqb_eq in E. subst d. vm_compute in Hd2. now elim Hd2. }
  rewrite Hx, HX. cbn [orb].
  rewrite rstrip_by_run; [reflexivity | repeat constructor |].
  pose proof (Forall_last is_digit (d :: ds) d Hd (Forall_inv Hd)) as [Hl1 Hl2].
  unfold is_semi. apply N.eqb_neq. change (chr ";") with 59%N.
  unfold char in *. lia.
Qed.

(** Decoding a decimal reference past the limit raises. *)
Lemma unescape_long_reference digits :
  Forall is_digit digits ->
  640 < length digits ->
  0 < int_max_str_digits T ->
  int_max_str_digits T < length digits ->
  unescape T (lit "&#" ++ digits ++ lit ";")
  = inl (int_limit_error T (length digits)).
Proof.
  intros Hd H1 H2 H3.
  assert (Hne : digits <> []) by (destruct digits; [simpl in H1; lia | discriminate]).
  unfold unescape.
  change (contains (chr "&") (lit "&#" ++ digits ++ lit ";")) with true.
  cbn [negb]. rewrite sub_unfold.
  pose proof (match_at_charref_decimal digits [] Hne Hd) as Hm.
  rewrite app_nil_r in Hm. rewrite Hm.
  change (lit "&#" ++ digits ++ lit ";")
    with (chr "&" :: chr "#" :: digits ++ lit ";").
  cbn [length].
  rewrite replace_charref_decimal, int_of_limit by assumption.
  reflexivity.
Qed.

Lemma long_reference_no_lt digits :
  Forall is_digit digits -> no_char (chr "<") (lit "&#" ++ digits ++ lit ";").
Proof.
  intros Hd. unfold no_char.
  change (lit "&#" ++ digits ++ lit ";")
    with (chr "&" :: chr "#" :: digits ++ lit ";").
  constructor; [discriminate|]. constructor; [discriminate|].
  apply Forall_app. split; [|repeat constructor; discriminate].
  eapply Forall_impl; [|exact Hd]. intros c [H1 H2].
  change (chr "<") with 60%N. unfold char in *. lia.
Qed.

(** X16. A diagram block whose body is a decimal character reference of
    more digits than [int] takes makes the transformer raise the
    [ValueError] of [int], whatever follows the block; the text before it
    is one in which no block begins. *)
Theorem process_raises_on_long_reference (p attrs digits s : str) :
  text_ok p ->
  no_char (chr ">") attrs ->
  Forall is_digit digits ->
  640 < length digits ->
  0 < int_max_str_digits T ->
  int_max_str_digits T < length digits ->
  process_mermaid_blocks T
    (p ++ mermaid_span attrs (lit "&#" ++ digits ++ lit ";") ++ s)
  = inl (int_limit_error T (length digits)).
Proof.
  intros Hp Ha Hd H1 H2 H3.
  rewrite process_prefix.
  - rewrite process_span by (auto using long_reference_no_lt).
    rewrite replace_mermaid_eq. cbn [group Nat.eqb].
    now rewrite unescape_long_reference.
  - intros i Hi. apply no_span_in_text; [exact Hp | | exact Hi].
    right. eexists. unfold mermaid_span. rewrite <- !app_assoc. reflexivity.
Qed.

End LongReference.

(** ** More on the title *)

Lemma Forall_before (P : char -> Prop) c s : Forall P s -> Forall P (before c s).
Proof.
  induction 1 as [|x s Hx Hs IH]; [constructor|]. simpl.
  destruct (char_eqb x c); [constructor | now constructor].
Qed.

Lemma before_no_char c s : no_char c (before c s).
Proof.
  induction s as [|x s IH]; [constructor|]. simpl.
  destruct (char_eqb x c) eqn:E; [constructor|].
  constructor; [now apply char_eqb_neq | exact IH].
Qed.

Lemma Forall_lstrip_by (P : char -> Prop) p s :
  Forall P s -> Forall P (lstrip_by p s).
Proof.
  induction 1 as [|x s Hx Hs IH]; [constructor|]. simpl.
  destruct (p x); [exact IH | now constructor].
Qed.

Lemma Forall_strip_by (P : char -> Prop) p s :
  Forall P s -> Forall P (strip_by p s).
Proof.
  intros H. unfold strip_by, rstrip_by.
  apply Forall_rev, Forall_lstrip_by, Forall_rev, Forall_lstrip_by, H.
Qed.

Lemma lstrip_by_head p s :
  match lstrip_by p s with [] => True | c :: _ => p c = false end.
Proof.
  induction s as [|x s IH]; [exact I|]. simpl.
  destruct (p x) eqn:E; [exact IH | exact E].
Qed.

Lemma lstrip_by_snoc p x c :
  p c = false -> lstrip_by p (x ++ [c]) = lstrip_by p x ++ [c].
Proof.
  intros Hc. induction x as [|d x IH]; simpl.
  - now rewrite Hc.
  - destruct (p d); [exact IH | reflexivity].
Qed.

(** What [strip] gives has no character to strip at either end. *)
Lemma strip_by_ends p s :
  match strip_by p s with
  | [] => True
  | c :: _ => p c = false /\ p (last (strip_by p s) c) = false
  end.
Proof.
  unfold strip_by, rstrip_by.
  pose proof (lstrip_by_head p s) as Hh.
  destruct (lstrip_by p s) as [|c l]; [exact I|].
  cbn [rev]. rewrite lstrip_by_snoc by assumption.
  rewrite rev_app_distr. cbn [rev app]. split; [exact Hh|].
  pose proof (lstrip_by_head p (rev l)) as Hl.
  destruct (lstrip_by p (rev l)) as [|d y]; [exact Hh|].
  cbn [rev]. change (c :: rev y ++ [d]) with ((c :: rev y) ++ [d]).
  now rewrite last_last.
Qed.

(** X4. The title is read off the first line: what follows the first
    newline has no part in it. *)
Theorem page_title_first_line (line rest : str) :
  page_title (line ++ newline :: rest) = page_title line.
Proof.
  unfold page_title. rewrite !hd_split. fold newline.
  rewrite before_app_sep.
  change (lit "#") with [chr "#"].
  rewrite <- (startswith_before (chr "#") newline (line ++ newline :: rest))
    by discriminate.
  rewrite before_app_sep.
  now rewrite (startswith_before (chr "#") newline line) by discriminate.
Qed.

(** X5. Whatever the source, the title has no white space at either end
    and holds no newline. *)
Theorem page_title_clean (content : str) :
  trimmed (page_title content) /\ no_char newline (page_title content).
Proof.
  unfold page_title. destruct (startswith (lit "#") content).
  - split.
    + apply strip_by_ends.
    + apply Forall_strip_by, Forall_lstrip_by. rewrite hd_split.
      apply before_no_char.
  - split; [split; reflexivity|]. repeat constructor; discriminate.
Qed.

(** ** More on the breadcrumb *)

Lemma lstrip_by_all p a x :
  Forall (fun c => p c = true) a -> lstrip_by p (a ++ x) = lstrip_by p x.
Proof.
  induction 1 as [|c a Hc Ha IH]; [reflexivity|]. simpl. now rewrite Hc.
Qed.

Lemma lstrip_by_app p s b :
  lstrip_by p (s ++ b)
  = match lstrip_by p s with
    | [] => lstrip_by p b
    | _ => lstrip_by p s ++ b
    end.
Proof.
  induction s as [|c s IH]; [reflexivity|]. simpl.
  destruct (p c); [exact IH | reflexivity].
Qed.

Lemma rstrip_by_all p y b :
  Forall (fun c => p c = true) b -> rstrip_by p (y ++ b) = rstrip_by p y.
Proof.
  intros Hb. unfold rstrip_by. rewrite rev_app_distr.
  now rewrite lstrip_by_all by (now apply Forall_rev).
Qed.

(** Characters to strip, added at the ends, are stripped with the rest. *)
Lemma strip_by_pad p a s b :
  Forall (fun c => p c = true) a ->
  Forall (fun c => p c = true) b ->
  strip_by p (a ++ s ++ b) = strip_by p s.
Proof.
  intros Ha Hb. unfold strip_by. rewrite lstrip_by_all by assumption.
  rewrite lstrip_by_app. destruct (lstrip_by p s) as [|c l] eqn:E.
  - rewrite <- (app_nil_r b), lstrip_by_all by assumption. reflexivity.
  - now apply rstrip_by_all.
Qed.


Section BreadcrumbMore.

Variable w : World.

(** X6. Slashes in front of the path and behind it do not change the
    breadcrumb. *)
Theorem generate_breadcrumb_pad (a path b : str) :
  Forall (fun c => c = chr "/") a ->
  Forall (fun c => c = chr "/") b ->
  generate_breadcrumb w (a ++ path ++ b) = generate_breadcrumb w path.
Proof.
  intros Ha Hb.
  assert (Hp : forall l, Forall (fun c => c = chr "/") l ->
                 Forall (fun c => char_eqb (chr "/") c = true) l).
  { intros l Hl. eapply Forall_impl; [|exact Hl]. intros c ->. reflexivity. }
  rewrite (generate_breadcrumb_parts w (a ++ path ++ b) _ eq_refl).
  rewrite (generate_breadcrumb_parts w path _ eq_refl).
  now rewrite strip_by_pad by auto.
Qed.


End BreadcrumbMore.

(** ** More on the normalized path *)

Lemma split_app_at_sep c a b :
  split c (a ++ c :: b) = split c a ++ split c b.
Proof.
  induction a as [|x a IH]; cbn [app split].
  - now rewrite char_eqb_refl.
  - destruct (char_eqb x c); [now rewrite IH|]. rewrite IH.
    destruct (split c a) as [|v vs] eqn:Es; [now apply split_nonempty in Es|].
    reflexivity.
Qed.

(** Unquoting starts afresh at a percent sign. *)
Lemma utb_app_percent r1 s :
  unquote_to_bytes (r1 ++ chr "%" :: s)
  = unquote_to_bytes r1 ++ unquote_to_bytes (chr "%" :: s).
Proof.
  rewrite (utb_bits (r1 ++ chr "%" :: s)), split_app_at_sep.
  rewrite (utb_bits r1), (utb_bits (chr "%" :: s)).
  cbn [split]. rewrite char_eqb_refl. cbn [hd tl app].
  destruct (split (chr "%") r1) as [|v vs] eqn:Es;
    [now apply split_nonempty in Es|].
  cbn [hd tl app]. now rewrite flat_map_app, <- app_assoc.
Qed.

Section DelimiterWord.

Variable decode : list N -> str.
Hypothesis decode_nil : decode [] = [].
Hypothesis decode_ascii : forall b1 c b2,
  (c <= 127)%N -> decode (b1 ++ c :: b2) = decode b1 ++ c :: decode b2.

(** A word [d] of ASCII characters that unquotes to the one ASCII
    character [c], whatever stands around it. *)
Variable d : str.
Variable c : char.
Hypothesis d_ascii : Forall (fun x => (x <= 127)%N) d.
Hypothesis c_ascii : (c <= 127)%N.
Hypothesis d_unquotes : forall r1 r2,
  unquote_to_bytes (r1 ++ d ++ r2)
  = unquote_to_bytes r1 ++ c :: unquote_to_bytes r2.

Lemma flush_word r1 r2 :
  flush decode (r1 ++ d ++ r2) = flush decode r1 ++ c :: flush decode r2.
Proof.
  rewrite !(flush_eq decode decode_nil), d_unquotes.
  now apply decode_ascii.
Qed.

Lemma scan_word_mid q : forall r1 r2,
  unquote_scan decode (r1 ++ d ++ r2) q
  = flush decode r1 ++ c :: unquote_scan decode r2 q.
Proof.
  induction q as [|x q IH]; intros r1 r2; cbn [unquote_scan].
  - apply flush_word.
  - destruct (x <=? 127)%N.
    + rewrite <- !app_assoc. apply IH.
    + rewrite flush_word, <- app_assoc. reflexivity.
Qed.

Lemma scan_ascii_prefix a : forall run q,
  Forall (fun x => (x <= 127)%N) a ->
  unquote_scan decode run (a ++ q) = unquote_scan decode (run ++ a) q.
Proof.
  induction a as [|x a IH]; intros run q Ha.
  - now rewrite app_nil_r.
  - cbn [app unquote_scan].
    rewrite (proj2 (N.leb_le x 127) (Forall_inv Ha)).
    rewrite IH by exact (Forall_inv_tail Ha).
    now rewrite <- app_assoc.
Qed.

Lemma scan_word p : forall run q,
  unquote_scan decode run (p ++ d ++ q)
  = unquote_scan decode run p ++ c :: unquote_scan decode [] q.
Proof.
  induction p as [|x p IH]; intros run q; cbn [app unquote_scan].
  - rewrite scan_ascii_prefix by exact d_ascii.
    rewrite <- (app_nil_r d) at 1. apply scan_word_mid.
  - destruct (x <=? 127)%N.
    + apply IH.
    + rewrite IH, <- app_assoc. reflexivity.
Qed.

Lemma unquote_word p q :
  unquote decode (p ++ d ++ q) = unquote decode p ++ c :: unquote decode q.
Proof.
  rewrite !(unquote_scan_eq decode decode_nil decode_ascii). apply scan_word.
Qed.

End DelimiterWord.

Lemma utb_encoded_question r1 r2 :
  unquote_to_bytes (r1 ++ lit "%3F" ++ r2)
  = unquote_to_bytes r1 ++ chr "?" :: unquote_to_bytes r2.
Proof.
  change (lit "%3F" ++ r2) with (chr "%" :: chr "3" :: chr "F" :: r2).
  rewrite utb_app_percent, utb_percent. reflexivity.
Qed.

Lemma utb_encoded_hash r1 r2 :
  unquote_to_bytes (r1 ++ lit "%23" ++ r2)
  = unquote_to_bytes r1 ++ chr "#" :: unquote_to_bytes r2.
Proof.
  change (lit "%23" ++ r2) with (chr "%" :: chr "2" :: chr "3" :: r2).
  rewrite utb_app_percent, utb_percent. reflexivity.
Qed.

Section NormalizeMore.

Variable w : World.

(** X9. The normalized path holds neither a question mark nor a hash,
    whatever the raw path and the decoder. *)
Theorem normalize_no_delimiters (raw : str) :
  no_char (chr "?") (normalize w raw) /\ no_char (chr "#") (normalize w raw).
Proof.
  rewrite normalize_eq. unfold root_to_index.
  destruct (str_eqb _ (lit "/")).
  - split; repeat constructor; discriminate.
  - split.
    + apply Forall_before, before_no_char.
    + apply before_no_char.
Qed.

(** X10. The path is decoded before it is cut: a question mark or a hash
    written as [%3F] or [%23] cuts the path as a plain one does. *)
Theorem normalize_encoded_delimiters :
  utf8_decode w [] = [] ->
  (forall b1 c b2, (c <= 127)%N ->
     utf8_decode w (b1 ++ c :: b2)
     = utf8_decode w b1 ++ c :: utf8_decode w b2) ->
  forall path rest,
    normalize w (path ++ lit "%3F" ++ rest) = normalize w path
    /\ normalize w (path ++ lit "%23" ++ rest) = normalize w path.
Proof.
  intros H0 Hs path rest. rewrite !normalize_eq. split.
  - rewrite (unquote_word (utf8_decode w) H0 Hs (lit "%3F") (chr "?"))
      by (try apply utb_encoded_question;
          try (repeat constructor; discriminate); discriminate).
    now rewrite before_app_sep.
  - rewrite (unquote_word (utf8_decode w) H0 Hs (lit "%23") (chr "#"))
      by (try apply utb_encoded_hash;
          try (repeat constructor; discriminate); discriminate).
    rewrite (before_comm (chr "#")), before_app_sep.
    now rewrite (before_comm (chr "?")).
Qed.

End NormalizeMore.

Lemma str_eqb_eq a : forall b, str_eqb a b = true <-> a = b.
Proof.
  induction a as [|x a IH]; intros [|y b]; simpl; split; intros H;
    try reflexivity; try discriminate.
  - apply andb_true_iff in H as [Hx Hab]. apply char_eqb_eq in Hx.
    apply IH in Hab. now subst.
  - injection H as -> ->. rewrite char_eqb_refl. now apply IH.
Qed.

Lemma endswith_iff suffix s :
  endswith suffix s = true <-> exists stem, s = stem ++ suffix.
Proof.
  unfold endswith. rewrite andb_true_iff, Nat.leb_le, str_eqb_eq. split.
  - intros [Hl E]. exists (firstn (length s - length suffix) s).
    pose proof (firstn_skipn (length s - length suffix) s) as H.
    rewrite E in H. now symmetry.
  - intros (stem & ->). rewrite length_app. split; [lia|].
    rewrite Nat.add_sub. rewrite skipn_app, skipn_all, Nat.sub_diag.
    reflexivity.
Qed.

(** X11. A markdown file is looked for exactly for the paths of the form
    [stem.html], and under the name [stem.md]. *)
Theorem md_path_of_stem :
  (forall path,
      endswith (lit ".html") path = true <->
      exists stem, path = stem ++ lit ".html")
  /\ (forall stem, md_path_of (stem ++ lit ".html") = stem ++ lit ".md").
Proof.
  split; [intros path; apply endswith_iff|].
  intros stem. unfold md_path_of. f_equal.
  rewrite length_app. change (length (lit ".html")) with 5.
  rewrite Nat.add_sub, firstn_app, Nat.sub_diag, firstn_all.
  cbn [firstn]. apply app_nil_r.
Qed.

(** ** More on the place of the file *)

Lemma md_path_of_app stem : md_path_of (stem ++ lit ".html") = stem ++ lit ".md".
Proof.
  unfold md_path_of. f_equal.
  rewrite length_app. change (length (lit ".html")) with 5.
  rewrite Nat.add_sub, firstn_app, Nat.sub_diag, firstn_all.
  cbn [firstn]. apply app_nil_r.
Qed.

Lemma parse_rooted_anchor rest : anchor (parse (lit "/" ++ rest)) <> [].
Proof.
  unfold parse. cbn [anchor].
  destruct (startswith (lit "//") (lit "/" ++ rest)
            && negb (startswith (lit "///") (lit "/" ++ rest)));
    discriminate.
Qed.

(** X12. Only one leading slash is taken off the path, and a path that
    still begins with a slash replaces the root when the two are joined: for
    a path with two leading slashes the file is looked for at the path
    itself, and the documentation root has no part in it. *)
Theorem double_slash_leaves_root :
  (forall w rest, file_path_of w (lit "//" ++ rest) = parse (lit "/" ++ rest))
  /\ (forall w stem,
         md_candidate w (lit "//" ++ stem ++ lit ".html")
         = parse (lit "/" ++ stem ++ lit ".md")).
Proof.
  assert (H : forall w rest,
             file_path_of w (lit "//" ++ rest) = parse (lit "/" ++ rest)).
  { intros w rest. unfold file_path_of.
    change (relative (lit "//" ++ rest)) with (lit "/" ++ rest).
    unfold truediv. pose proof (parse_rooted_anchor rest) as Ha.
    destruct (anchor (parse (lit "/" ++ rest))); [contradiction | reflexivity]. }
  split; [exact H|].
  intros w stem. unfold md_candidate.
  replace (lit "//" ++ stem ++ lit ".html")
    with ((lit "//" ++ stem) ++ lit ".html") by now rewrite <- app_assoc.
  rewrite md_path_of_app, <- !app_assoc. apply H.
Qed.

Lemma filter_is_part names :
  Forall plain_name names -> filter is_part names = names.
Proof.
  induction 1 as [|n names [_ Hn] Hs IH]; [reflexivity|].
  cbn [filter]. now rewrite Hn, IH.
Qed.

Lemma plain_name_first n rest :
  plain_name n ->
  exists c tail, n ++ rest = c :: tail /\ c <> chr "/".
Proof.
  intros [Hs Hp]. destruct n as [|c n]; [discriminate|].
  exists c, (n ++ rest). split; [reflexivity|]. exact (Forall_inv Hs).
Qed.

Lemma join_first_name sep n names :
  exists rest, join sep (n :: names) = n ++ rest.
Proof.
  destruct names as [|m names].
  - exists []. simpl. now rewrite app_nil_r.
  - eexists. apply join_cons2.
Qed.

(** X13. A path of names between single slashes is joined to the
    documentation root name by name: the file looked for has the anchor of
    the root and its names followed by the names of the path, as they are
    ([..] too: nothing is resolved or dropped). *)
Theorem plain_path_joins_root (w : World) (names : list str) :
  names <> [] ->
  Forall plain_name names ->
  file_path_of w (lit "/" ++ join (lit "/") names)
  = {| anchor := anchor (docs_root w);
       parts := parts (docs_root w) ++ names |}.
Proof.
  intros Hne Hp.
  unfold file_path_of.
  change (relative (lit "/" ++ join (lit "/") names))
    with (join (lit "/") names).
  destruct names as [|n names]; [contradiction|].
  destruct (join_first_name (lit "/") n names) as (rest & Ej).
  destruct (plain_name_first n rest (Forall_inv Hp)) as (c & tail & Ec & Hc).
  unfold truediv, parse. cbn [anchor parts].
  assert (Hs : startswith (lit "/") (join (lit "/") (n :: names)) = false).
  { rewrite Ej, Ec. unfold startswith.
    change (lit "/") with [chr "/"]. cbn [strip_prefix].
    destruct (char_eqb (chr "/") c) eqn:E'; [|reflexivity].
    apply char_eqb_eq in E'. congruence. }
  assert (Hs2 : startswith (lit "//") (join (lit "/") (n :: names)) = false).
  { rewrite Ej, Ec. unfold startswith.
    change (lit "//") with [chr "/"; chr "/"]. cbn [strip_prefix].
    destruct (char_eqb (chr "/") c) eqn:E'; [|reflexivity].
    apply char_eqb_eq in E'. congruence. }
  rewrite Hs, Hs2. cbn [andb]. f_equal. f_equal.
  change (lit "/") with [chr "/"].
  rewrite split_join; [apply filter_is_part; exact Hp | discriminate |].
  eapply Forall_impl; [|exact Hp]. intros a Ha. exact (proj1 Ha).
Qed.

(** ** More on the request handler *)

Section HandlerMore.

Variable w : World.

Lemma count_static p l :
  (forall s, p (Static s) = false) -> count p (List.map Static l) = 0.
Proof.
  intros H. unfold count. induction l as [|x l IH]; [reflexivity|].
  cbn [List.map filter]. now rewrite H.
Qed.

Lemma count_app p a b : count p (a ++ b) = count p a + count p b.
Proof. unfold count. now rewrite filter_app, length_app. Qed.

(** The base handler's part of a trace: its call once, with the raw path,
    and nothing of the handler's own. *)
Lemma super_do_GET_counts raw :
  count is_exists (trace (super_do_GET w raw)) = 0
  /\ count is_read (trace (super_do_GET w raw)) = 0
  /\ count is_convert (trace (super_do_GET w raw)) = 0
  /\ count is_send_error (trace (super_do_GET w raw)) = 0
  /\ count is_super (trace (super_do_GET w raw)) = 1
  /\ (forall r, In (SuperGET r) (trace (super_do_GET w raw)) -> r = raw).
Proof.
  rewrite super_do_GET_eq. cbn [trace fst].
  change (SuperGET raw :: List.map Static (fst (base_do_GET w raw)))
    with ([SuperGET raw] ++ List.map Static (fst (base_do_GET w raw))).
  rewrite !count_app, !count_static by reflexivity.
  repeat split; try reflexivity.
  intros r H. apply in_app_or in H as [[H|[]]|H]; [now injection H|].
  apply in_map_iff in H as (x & E & _). discriminate.
Qed.

(** X14. One pass, whatever raises: in every run of [do_GET] the existence
    test, the read of the file, the renderer and the handler's own error
    response each come at most once; the base handler is called at most
    once, with the raw path only, and only when nothing was read, rendered
    or sent before: what comes before its call is at most the one existence
    test. *)
Theorem do_GET_one_pass (raw : str) :
  count is_exists (trace (do_GET w raw)) <= 1
  /\ count is_read (trace (do_GET w raw)) <= 1
  /\ count is_convert (trace (do_GET w raw)) <= 1
  /\ count is_send_error (trace (do_GET w raw)) <= 1
  /\ count is_super (trace (do_GET w raw)) <= 1
  /\ (forall r, In (SuperGET r) (trace (do_GET w raw)) -> r = raw)
  /\ (In (SuperGET raw) (trace (do_GET w raw)) ->
      exists pre,
        trace (do_GET w raw) = pre ++ trace (super_do_GET w raw)
        /\ (pre = [] \/ exists p, pre = [FsExists p])).
Proof.
  destruct (super_do_GET_counts raw) as (Hx & Hrd & Hcv & Hse & Hsu & Hs).
  destruct (endswith (lit ".html") (normalize w raw)) eqn:Eh.
  2:{ rewrite do_GET_not_html by assumption.
      repeat split; try lia; try assumption.
      intros _. exists []. split; [reflexivity | now left]. }
  rewrite do_GET_html by assumption.
  destruct (MARKDOWN_AVAILABLE w) eqn:Ea.
  2:{ rewrite serve_markdown_unavailable by assumption. trace_facts. }
  destruct (fs_exists w (file_path_of w (md_path_of (normalize w raw))))
    as [e|[|]] eqn:Ee.
  - rewrite serve_markdown_raises with (e := e) by assumption. trace_facts.
  - rewrite serve_markdown_present by assumption.
    destruct (fs_read w _) as [e|content].
    { destruct (except_clause_cases w e) as [-> | [_ ->]]; trace_facts. }
    destruct (md_convert w content) as [e|html_content].
    { destruct (except_clause_cases w e) as [-> | [_ ->]]; trace_facts. }
    destruct (process_mermaid_blocks (entities w) html_content)
      as [e|diagrams].
    { destruct (except_clause_cases w e) as [-> | [_ ->]]; trace_facts. }
    destruct (utf8_ok _).
    { trace_facts. }
    destruct (except_clause_cases w (encode_error w (lit "utf-8")
               (page w (relative (md_path_of (normalize w raw))) content
                  diagrams))) as [-> | [_ ->]]; trace_facts.
  - rewrite serve_markdown_missing by assumption.
    destruct (super_do_GET w raw) as [t res] eqn:Es.
    unfold trace in *. cbn [fst snd bind] in *.
    change (FsExists (file_path_of w (md_path_of (normalize w raw))) :: t)
      with ([FsExists (file_path_of w (md_path_of (normalize w raw)))] ++ t).
    rewrite !count_app, Hx, Hrd, Hcv, Hse, Hsu. cbn [count filter length
      is_exists is_read is_convert is_send_error is_super].
    repeat split; try lia.
    + intros r [H|H]; [discriminate | now apply Hs].
    + intros _. eexists. split; [reflexivity|]. right. now eexists.
Qed.

(** When [serve_markdown] answers, [do_GET] is what it does with the
    normalized path. *)
Lemma do_GET_by_path (raw : str) :
  endswith (lit ".html") (normalize w raw) = true ->
  MARKDOWN_AVAILABLE w = false
  \/ fs_exists w (md_candidate w (normalize w raw)) = inr true ->
  do_GET w raw
  = (trace (serve_markdown w (md_path_of (normalize w raw))),
     match result (serve_markdown w (md_path_of (normalize w raw))) with
     | inl e => inl e
     | inr _ => inr tt
     end).
Proof.
  intros Hh H.
  destruct (do_GET_served w raw Hh) as [Et Er].
  - now apply serve_markdown_answers.
  - destruct (do_GET w raw). cbn [trace result fst snd] in *. now subst.
Qed.

Lemma normalize_cut :
  utf8_decode w [] = [] ->
  (forall b1 c b2, (c <= 127)%N ->
     utf8_decode w (b1 ++ c :: b2)
     = utf8_decode w b1 ++ c :: utf8_decode w b2) ->
  forall path rest,
    normalize w (path ++ chr "?" :: rest) = normalize w path
    /\ normalize w (path ++ chr "#" :: rest) = normalize w path.
Proof.
  intros H0 Hs path rest. rewrite !normalize_eq. split.
  - rewrite (unquote_app _ H0 Hs) by (try discriminate; reflexivity).
    now rewrite before_app_sep.
  - rewrite (unquote_app _ H0 Hs) by (try discriminate; reflexivity).
    rewrite (before_comm (chr "#")), before_app_sep.
    now rewrite (before_comm (chr "?")).
Qed.

(** X15. A request that [serve_markdown] answers (the renderer is missing,
    or the markdown file is there) is answered in the same way, event for
    event, with any query or fragment added to its path. The decoder is
    taken as in the theorem on the normalized path. *)
Theorem do_GET_ignores_query :
  utf8_decode w [] = [] ->
  (forall b1 c b2, (c <= 127)%N ->
     utf8_decode w (b1 ++ c :: b2)
     = utf8_decode w b1 ++ c :: utf8_decode w b2) ->
  forall path,
    endswith (lit ".html") (normalize w path) = true ->
    MARKDOWN_AVAILABLE w = false
    \/ fs_exists w (md_candidate w (normalize w path)) = inr true ->
    forall rest,
      do_GET w (path ++ chr "?" :: rest) = do_GET w path
      /\ do_GET w (path ++ chr "#" :: rest) = do_GET w path.
Proof.
  intros H0 Hs path Hh H rest.
  destruct (normalize_cut H0 Hs path rest) as [Eq Ef].
  rewrite (do_GET_by_path path Hh H).
  split; rewrite do_GET_by_path; rewrite ?Eq, ?Ef; auto.
Qed.

End HandlerMore.

(** ** Exceptions that leave the handler *)

Lemma latin1_ok_render_error e : latin1_ok (render_error e) = latin1_ok e.
Proof.
  unfold render_error, latin1_ok. now rewrite forallb_app.
Qed.

Section HandlerErrors.

Variable w : World.

(** X17. The existence test stands outside the [try]: when it raises, the
    exception leaves [do_GET] at once; nothing is read, rendered or sent,
    and the base handler is not called. *)
Theorem existence_test_is_not_guarded (raw : str) (e : exn) :
  endswith (lit ".html") (normalize w raw) = true ->
  MARKDOWN_AVAILABLE w = true ->
  fs_exists w (md_candidate w (normalize w raw)) = inl e ->
  do_GET w raw = ([FsExists (md_candidate w (normalize w raw))], inl e).
Proof.
  intros Hh Ha He. rewrite do_GET_html by assumption.
  unfold md_candidate in *.
  now rewrite serve_markdown_raises with (e := e).
Qed.

(** X18. An error text that the status line cannot carry is not sent:
    when reading the file or the renderer raises with a message that holds
    a character above U+00FF (and the request is not [HTTP/0.9]), the
    encoder's exception leaves [do_GET] from inside the except clause, and
    no response is begun. *)
Theorem unencodable_error_is_not_sent (raw : str) :
  endswith (lit ".html") (normalize w raw) = true ->
  MARKDOWN_AVAILABLE w = true ->
  fs_exists w (md_candidate w (normalize w raw)) = inr true ->
  http09 w = false ->
  let file_path := md_candidate w (normalize w raw) in
  (forall e,
      fs_read w file_path = inl e ->
      ~ latin1 e ->
      do_GET w raw
      = ([FsExists file_path; FsRead file_path],
         inl (encode_error w (lit "latin-1") (render_error e))))
  /\ (forall content e,
         fs_read w file_path = inr content ->
         md_convert w content = inl e ->
         ~ latin1 e ->
         do_GET w raw
         = ([FsExists file_path; FsRead file_path; MdConvert content],
            inl (encode_error w (lit "latin-1") (render_error e)))).
Proof.
  intros Hh Ha He H9 file_path. unfold md_candidate in *. subst file_path.
  rewrite do_GET_html by assumption.
  rewrite serve_markdown_present by assumption.
  assert (Hx : forall e, ~ latin1 e ->
            except_clause w e
            = ([], inl (encode_error w (lit "latin-1") (render_error e)))).
  { intros e Hl. destruct (except_clause_cases w e) as [E | [_ E]]; [|exact E].
    exfalso. unfold except_clause, send_error in E.
    fold (render_error e) in E. rewrite H9, latin1_ok_render_error in E.
    cbn [orb] in E.
    destruct (latin1_ok e) eqn:El; [|discriminate].
    now apply Hl, latin1_ok_iff. }
  split.
  - intros e Hr Hl. rewrite Hr, (Hx e Hl). reflexivity.
  - intros content e Hr Hc Hl. rewrite Hr, Hc, (Hx e Hl). reflexivity.
Qed.

End HandlerErrors.

Lemma last_not_slash file c :
  file <> [] -> no_char (chr "/") file ->
  char_eqb (chr "/") (last file c) = false.
Proof.
  intros Hne Hn. apply char_eqb_neq. intros E.
  apply exists_last in Hne as (x & l & ->). rewrite last_last in E.
  unfold no_char in Hn. apply Forall_app in Hn as [_ Hl].
  apply (Forall_inv Hl). now symmetry.
Qed.

Lemma rstrip_by_keep p s c :
  s <> [] -> p (last s c) = false -> rstrip_by p s = s.
Proof.
  intros Hne Hl. rewrite <- (app_nil_r s) at 1.
  apply rstrip_by_run; [constructor|].
  destruct s as [|x s]; [exact I|].
  assert (E : last (x :: s) x = last (x :: s) c)
    by (apply (last_app_nonempty _ [] (x :: s) x c); discriminate).
  now rewrite E.
Qed.

(** The directories of a path that ends with a slash and a file name. *)
Lemma dirs_of_path dir file :
  file <> [] -> no_char (chr "/") file ->
  removelast (split (chr "/")
                (strip_by (char_eqb (chr "/")) (dir ++ chr "/" :: file)))
  = match lstrip_by (char_eqb (chr "/")) dir with
    | [] => []
    | l => split (chr "/") l
    end.
Proof.
  intros Hne Hn. unfold strip_by. rewrite lstrip_by_app.
  destruct (lstrip_by (char_eqb (chr "/")) dir) as [|c l] eqn:E.
  - cbn [lstrip_by]. rewrite char_eqb_refl.
    rewrite (lstrip_by_run _ [] file); [|constructor|].
    + rewrite (rstrip_by_keep (char_eqb (chr "/")) file (chr "/") Hne
                 (last_not_slash file (chr "/") Hne Hn)).
      now rewrite split_no_sep.
    + destruct file as [|x file]; [exact I|].
      apply char_eqb_neq. intros E'. apply (Forall_inv Hn). now symmetry.
  - rewrite (rstrip_by_keep _ _ (chr "/")).
    + rewrite split_app_at_sep, (split_no_sep _ file Hn).
      apply removelast_last.
    + discriminate.
    + change ((c :: l) ++ chr "/" :: file) with ((c :: l) ++ [chr "/"] ++ file).
      rewrite app_assoc.
      rewrite (last_app_nonempty _ _ file (chr "/") (chr "/")) by assumption.
      now apply last_not_slash.
Qed.

(** X8. The breadcrumb is that of the directory: the pages of one
    directory have the same breadcrumb, whatever the file is called. *)
Theorem generate_breadcrumb_of_directory (w : World) (dir file1 file2 : str) :
  file1 <> [] -> no_char (chr "/") file1 ->
  file2 <> [] -> no_char (chr "/") file2 ->
  generate_breadcrumb w (dir ++ chr "/" :: file1)
  = generate_breadcrumb w (dir ++ chr "/" :: file2).
Proof.
  intros H1 N1 H2 N2.
  rewrite (generate_breadcrumb_parts w (dir ++ chr "/" :: file1) _ eq_refl).
  rewrite (generate_breadcrumb_parts w (dir ++ chr "/" :: file2) _ eq_refl).
  now rewrite !dirs_of_path by assumption.
Qed.

(** ** The further theorems at sample inputs *)

Lemma process_all_blocks_witness :
  process_mermaid_blocks core_tables
    (page_of [(sample_head, sample_attrs, sample_body);
              (sample_between, [], sample_body2)] sample_tail)
  = inr (rendered_of [(sample_head, sample_attrs, sample_body);
                      (sample_between, [], sample_body2)] sample_tail).
Proof.
  apply process_all_blocks.
  - constructor; [|constructor; [|constructor]].
    + split; [apply text_ok_test; reflexivity|].
      repeat constructor; discriminate.
    + split; [apply text_ok_test; reflexivity | constructor].
  - apply text_ok_test; reflexivity.
Defined.

Lemma process_needs_all_parts_witness :
  process_mermaid_blocks core_tables sample_between = inr sample_between.
Proof.
  apply process_needs_all_parts. right. left.
  apply not_occurs. reflexivity.
Defined.

Lemma process_swallows_open_pre_witness :
  process_mermaid_blocks core_tables
    (lit "<pre" ++ lit " class=x" ++ chr "010"
       :: mermaid_span [] (escape (lit "a < b")) ++ sample_tail)
  = inr (lit "<div class=" ++ dquote :: lit "mermaid" ++ dquote
           :: lit ">a < b</div>" ++ sample_tail).
Proof.
  apply (process_swallows_open_pre core_tables (lit " class=x" ++ [chr "010"])
           [] (lit "a < b") sample_tail).
  - repeat constructor; discriminate.
  - constructor.
  - apply text_ok_test; reflexivity.
Defined.

Lemma generate_breadcrumb_pad_witness :
  generate_breadcrumb (sample_world true [] [])
    (lit "//" ++ lit "guides/intro.md" ++ lit "/")
  = generate_breadcrumb (sample_world true [] []) (lit "guides/intro.md").
Proof.
  apply generate_breadcrumb_pad; repeat constructor.
Defined.


Lemma generate_breadcrumb_of_directory_witness :
  generate_breadcrumb (sample_world true [] []) (lit "guides/api" ++ chr "/" :: lit "a.md")
  = generate_breadcrumb (sample_world true [] []) (lit "guides/api" ++ chr "/" :: lit "index.md").
Proof.
  apply generate_breadcrumb_of_directory;
    try discriminate; repeat constructor; discriminate.
Defined.

Lemma normalize_encoded_delimiters_witness :
  normalize (sample_world true [] []) (lit "/a.html" ++ lit "%3F" ++ lit "b")
  = normalize (sample_world true [] []) (lit "/a.html")
  /\ normalize (sample_world true [] []) (lit "/a.html" ++ lit "%23" ++ lit "b")
     = normalize (sample_world true [] []) (lit "/a.html").
Proof.
  apply (normalize_encoded_delimiters (sample_world true [] []) eq_refl
           (fun b1 c b2 _ => eq_refl)).
Defined.

Lemma md_path_of_stem_witness :
  exists stem, lit "/guides/intro.html" = stem ++ lit ".html".
Proof.
  apply (proj1 (proj1 md_path_of_stem (lit "/guides/intro.html"))).
  reflexivity.
Defined.

Lemma plain_path_joins_root_witness :
  file_path_of (sample_world true [] [])
    (lit "/" ++ join (lit "/") [lit "guides"; lit ".."; lit "intro.md"])
  = {| anchor := lit "/";
       parts := [lit "srv"; lit "docs"; lit "guides"; lit ".."; lit "intro.md"] |}.
Proof.
  apply (plain_path_joins_root (sample_world true [] [])
           [lit "guides"; lit ".."; lit "intro.md"]).
  - discriminate.
  - repeat constructor; discriminate.
Defined.

Lemma do_GET_one_pass_witness :
  (exists pre,
      trace (do_GET (sample_world true secret_disk []) (lit "/missing.html"))
      = pre ++ trace (super_do_GET (sample_world true secret_disk [])
                        (lit "/missing.html"))
      /\ (pre = [] \/ exists p, pre = [FsExists p]))
  /\ count is_super (trace (do_GET long_name_world (lit "/long.html"))) <= 1.
Proof.
  split.
  - destruct (do_GET_one_pass (sample_world true secret_disk [])
                (lit "/missing.html")) as (_ & _ & _ & _ & _ & _ & H).
    apply H. right. left. reflexivity.
  - destruct (do_GET_one_pass long_name_world (lit "/long.html"))
      as (_ & _ & _ & _ & H & _).
    exact H.
Defined.

Lemma do_GET_ignores_query_witness :
  do_GET (sample_world true secret_disk []) (lit "/index.html" ++ chr "?" :: lit "v=2")
  = do_GET (sample_world true secret_disk []) (lit "/index.html")
  /\ do_GET (sample_world true secret_disk []) (lit "/index.html" ++ chr "#" :: lit "v=2")
     = do_GET (sample_world true secret_disk []) (lit "/index.html").
Proof.
  apply (do_GET_ignores_query (sample_world true secret_disk []) eq_refl
           (fun b1 c b2 _ => eq_refl)).
  - reflexivity.
  - right. reflexivity.
Defined.

Lemma existence_test_is_not_guarded_witness :
  do_GET long_name_world (lit "/long.html")
  = ([FsExists (md_candidate long_name_world (lit "/long.html"))],
     inl (lit "[Errno 36] File name too long")).
Proof.
  apply (existence_test_is_not_guarded long_name_world (lit "/long.html"));
    reflexivity.
Defined.

Lemma unencodable_error_is_not_sent_witness :
  do_GET (sample_world_with utf8_short true arrow_disk [])
    (lit "/%E2%86%92.html")
  = ([FsExists (md_candidate (sample_world_with utf8_short true arrow_disk [])
                  (lit "/" ++ arrow :: lit ".html"));
      FsRead (md_candidate (sample_world_with utf8_short true arrow_disk [])
                (lit "/" ++ arrow :: lit ".html"))],
     inl (lit "codec can't encode character: latin-1")).
Proof.
  apply (proj1 (unencodable_error_is_not_sent
                  (sample_world_with utf8_short true arrow_disk [])
                  (lit "/%E2%86%92.html") eq_refl eq_refl eq_refl eq_refl)
           (lit "[Errno 21] Is a directory: '/srv/docs/" ++ arrow :: lit ".md'")).
  - reflexivity.
  - intros H. apply latin1_ok_iff in H. discriminate H.
Defined.

Lemma process_raises_on_long_reference_witness :
  process_mermaid_blocks core_tables
    (sample_head ++ mermaid_span sample_attrs long_reference ++ sample_tail)
  = inl (lit "Exceeds the limit (4300 digits) for integer string conversion").
Proof.
  apply (process_raises_on_long_reference core_tables sample_head sample_attrs
           (repeat (chr "9") 4301) sample_tail).
  - apply text_ok_test; reflexivity.
  - repeat constructor; discriminate.
  - apply Forall_forall. intros c Hc. apply repeat_spec in Hc. subst c.
    split; vm_compute; discriminate.
  - rewrite repeat_length. lia.
  - vm_compute. lia.
  - rewrite repeat_length. vm_compute. lia.
Defined.
